(** * authlib: permission decision engine and token verification

    A shallow embedding of the Go packages [authz] (the multi-tenant
    permission client: request validation, namespace check, cached
    permission-set retrieval, scope and wildcard matching, cache codec)
    and [authn] (key retriever and token verifier).

    Conventions.
    - Go [string] is [string] (a sequence of 8-bit characters), [[]byte] is
      [list byte], [int64] is [Z].
    - A Go result pair [(v, err)] is a pair whose error component is an
      [option error]; [None] is [nil].
    - Calls that leave the process (cache backend, permission-read RPC,
      key-set HTTP fetch) run in a state monad over a [World]: the state of
      the collaborators plus the log of the calls made so far.
    - Tracing spans are not modelled; they carry no decision logic. *)

From Stdlib Require Import Strings.Byte Strings.Ascii.
From stdpp Require Import gmap strings list pretty.

Local Open Scope Z_scope.
#[local] Set Warnings "-clear-no-such-hyp".

(** ** Errors *)

(** The sentinel error values of the packages, the errors of the libraries
    they call, and [fmt.Errorf("%w: msg", inner)] wrapping. *)
Inductive error : Type :=
  | ErrMissingConfig
  | ErrMissingStackID
  | ErrMissingAction
  | ErrMissingCaller
  | ErrMissingSubject
  | ErrReadPermission
  | ErrNotFound              (* cache.ErrNotFound *)
  | ErrParseToken
  | ErrInvalidTokenType
  | ErrInvalidSigningKey
  | ErrFetchingSigningKey
  | ErrExpiredToken
  | ErrInvalidAudience
  | ErrJWTExpired            (* jwt.ErrExpired *)
  | ErrJWTInvalidAudience    (* jwt.ErrInvalidAudience *)
  | ErrGobDecode             (* any error of gob's Decoder.Decode *)
  | ErrLib (msg : string)    (* any other library or backend error *)
  | ErrWrap (inner : error) (msg : string).

#[global] Instance error_eq_dec : EqDecision error.
Proof. solve_decision. Defined.

(** [errors.Is err target]: [err] or an error it wraps equals [target]. *)
Fixpoint errors_Is (err target : error) : bool :=
  if decide (err = target) then true
  else match err with
       | ErrWrap inner _ => errors_Is inner target
       | _ => false
       end.

(** ** Cache abstraction and the world of collaborators *)

Definition bytes := list byte.

(** [time.Duration] as handed to [Cache.Set]. *)
Inductive Duration : Type :=
  | NoExpiration
  | DefaultExpiration
  | Nanoseconds (n : Z).

Record ReadRequest := {
  StackId : Z;
  ReadAction : string;
  ReadSubject : string;
}.

(** [authzv1.ReadResponse]: [Data] holds the [Object] of each entry. *)
Record ReadResponse := {
  RespFound : bool;
  RespData : list string;
}.

(** One call that leaves the process. *)
Inductive Event : Type :=
  | EvCacheGet (key : string)
  | EvCacheSet (key : string) (data : bytes) (exp : Duration)
  | EvCacheDelete (key : string)
  | EvRead (req : ReadRequest)
  | EvHTTPGet (url : string).

Section World.
(** State of the collaborators (cache backend, remote services). *)
Context {S : Type}.

Record World := { w_state : S; w_log : list Event }.

(** [cache.Cache]: an interface; every method may fail and may change the
    backend's state. *)
Record Cache := {
  cache_Get : string → S → (bytes * option error) * S;
  cache_Set : string → bytes → Duration → S → option error * S;
  cache_Delete : string → S → option error * S;
}.

Definition M (A : Type) : Type := World → A * World.

Definition ret {A} (a : A) : M A := λ w, (a, w).

Definition bind {A B} (m : M A) (k : A → M B) : M B :=
  λ w, let '(a, w') := m w in k a w'.

(** Run a collaborator's method and log the call. *)
Definition call {A} (ev : Event) (f : S → A * S) : M A :=
  λ w, let '(a, s') := f (w_state w) in
       (a, {| w_state := s'; w_log := w_log w ++ [ev] |}).

Definition cacheGet (c : Cache) (key : string) : M (bytes * option error) :=
  call (EvCacheGet key) (cache_Get c key).

Definition cacheSet (c : Cache) (key : string) (data : bytes) (exp : Duration)
  : M (option error) :=
  call (EvCacheSet key data exp) (cache_Set c key data exp).
End World.

Arguments World : clear implicits.
Arguments Cache : clear implicits.
Arguments M : clear implicits.

(** Modelled from the spec: the in-memory cache of package [cache], whose
    source is outside this development. [Get] answers the bytes stored under
    the key, absence being the distinguished error [ErrNotFound]; [Set]
    stores, [Delete] removes, and neither fails. Expiry is left out. *)
Definition mapCache : Cache (gmap string bytes) := {|
  cache_Get key m :=
    match m !! key with
    | Some data => ((data, None), m)
    | None => (([], Some ErrNotFound), m)
    end;
  cache_Set key data _ m := (None, <[key := data]> m);
  cache_Delete key m := (None, delete key m);
|}.

#[global] Instance M_ret {S} : MRet (M S) := λ A, ret.
#[global] Instance M_bind {S} : MBind (M S) := λ A B k m, bind m k.

(** ** The gob wire format of the values the cache codec stores *)

(** Modelled from the spec: the cache wire format for permission sets, a
    fixed structural binary encoding of [{Found bool, Scopes, Wildcard}],
    field by field. The code gets it from [encoding/gob], a library outside
    the repository; the layout below is gob's for the values a [controller]
    holds: unsigned integers, booleans, strings and [map[string]bool]. The
    message framing and the type descriptor that gob sends ahead of the
    first value do not depend on the value and are left out. *)
Module gob.
Local Open Scope N_scope.

(** [uint8(n)] for [n < 256] *)
Definition to_byte (n : N) : byte := default x00 (Byte.of_N n).

(** The bytes of [x], most significant first, without leading zero bytes;
    [width] is the size of the integer type in bytes. *)
Fixpoint big_endian (width : nat) (x : N) (acc : bytes) : bytes :=
  match width with
  | O => acc
  | Datatypes.S w =>
      if x =? 0 then acc
      else big_endian w (x / 256) (to_byte (x mod 256) :: acc)
  end.

(** An unsigned integer below 128 is one byte; any other is the negated
    byte count in one byte, then its big-endian bytes. *)
Definition encodeUint (x : N) : bytes :=
  if x <=? 127 then [to_byte x]
  else let bs := big_endian 8 x [] in
       to_byte (256 - N.of_nat (length bs)) :: bs.

Definition from_big_endian (bs : bytes) : N :=
  foldl (λ v b, v * 256 + Byte.to_N b) 0 bs.

Definition decodeUint (input : bytes) : option (N * bytes) :=
  match input with
  | [] => None
  | b :: rest =>
      let v := Byte.to_N b in
      if v <=? 127 then Some (v, rest)
      else let n := N.to_nat (256 - v) in
           if (8 <? n)%nat then None
           else if (length rest <? n)%nat then None
           else Some (from_big_endian (take n rest), drop n rest)
  end.

(** A boolean is the unsigned integer 0 or 1. *)
Definition encodeBool (b : bool) : bytes := encodeUint (if b then 1 else 0).

Definition decodeBool (input : bytes) : option (bool * bytes) :=
  '(v, rest) ← decodeUint input;
  Some (negb (v =? 0), rest).

(** A string is its length, then its bytes. *)
Definition encodeString (s : string) : bytes :=
  encodeUint (N.of_nat (String.length s)) ++ String.list_byte_of_string s.

Definition decodeString (input : bytes) : option (string * bytes) :=
  '(n, rest) ← decodeUint input;
  if N.of_nat (length rest) <? n then None
  else Some (String.string_of_list_byte (take (N.to_nat n) rest), drop (N.to_nat n) rest).

(** A map is its number of entries, then each key followed by its value,
    in the order the map is ranged over. *)
Fixpoint encodeEntries (entries : list (string * bool)) : bytes :=
  match entries with
  | [] => []
  | (k, v) :: rest => encodeString k ++ encodeBool v ++ encodeEntries rest
  end.

Definition encodeMap (entries : list (string * bool)) : bytes :=
  encodeUint (N.of_nat (length entries)) ++ encodeEntries entries.

Fixpoint decodeEntries (n : nat) (input : bytes) (m : gmap string bool)
  : option (gmap string bool * bytes) :=
  match n with
  | O => Some (m, input)
  | Datatypes.S n' =>
      '(k, rest) ← decodeString input;
      '(v, rest) ← decodeBool rest;
      decodeEntries n' rest (<[k := v]> m)
  end.

Definition decodeMap (input : bytes) : option (gmap string bool * bytes) :=
  '(n, rest) ← decodeUint input;
  decodeEntries (N.to_nat n) rest ∅.

(** The largest count gob sends: lengths of Go values stay below it. *)
Definition uint64_max : N := 2 ^ 64 - 1.

(** *** Decoding inverts encoding, value by value *)

Lemma to_N_to_byte (n : N) : n < 256 → Byte.to_N (to_byte n) = n.
Proof.
  intros Hn. unfold to_byte.
  destruct (Byte.of_N n) as [b|] eqn:Hb; simpl.
  - by apply Byte.to_of_N.
  - apply Byte.of_N_None_iff in Hb. lia.
Qed.

Lemma big_endian_acc width x acc :
  big_endian width x acc = big_endian width x [] ++ acc.
Proof.
  revert x acc. induction width as [|w IH]; intros x acc; simpl; [done|].
  destruct (x =? 0); [done|].
  rewrite (IH _ (_ :: acc)), (IH _ [_]), <- app_assoc. done.
Qed.

Lemma big_endian_length width x : (length (big_endian width x []) ≤ width)%nat.
Proof.
  revert x. induction width as [|w IH]; intros x; simpl; [lia|].
  destruct (x =? 0); simpl; [lia|].
  rewrite big_endian_acc, length_app. simpl. specialize (IH (x / 256)). lia.
Qed.

Lemma big_endian_nonempty width x :
  x ≠ 0 → (1 ≤ length (big_endian (Datatypes.S width) x []))%nat.
Proof.
  intros Hx. simpl. destruct (x =? 0) eqn:E.
  - apply N.eqb_eq in E. done.
  - rewrite big_endian_acc, length_app. simpl. lia.
Qed.

Lemma from_big_endian_snoc bs b :
  from_big_endian (bs ++ [b]) = from_big_endian bs * 256 + Byte.to_N b.
Proof. unfold from_big_endian. by rewrite foldl_snoc. Qed.

Lemma from_big_endian_inv width x :
  x < 256 ^ N.of_nat width → from_big_endian (big_endian width x []) = x.
Proof.
  revert x. induction width as [|w IH]; intros x Hx.
  - simpl in *. assert (x = 0) as -> by lia. done.
  - simpl. destruct (x =? 0) eqn:E.
    + apply N.eqb_eq in E. by subst.
    + rewrite big_endian_acc, from_big_endian_snoc, IH.
      * rewrite to_N_to_byte by (apply N.mod_lt; lia).
        pose proof (N.div_mod x 256). lia.
      * rewrite Nat2N.inj_succ, N.pow_succ_r' in Hx.
        apply N.Div0.div_lt_upper_bound. lia.
Qed.

Lemma decode_encode_uint (x : N) (rest : bytes) :
  x ≤ uint64_max → decodeUint (encodeUint x ++ rest) = Some (x, rest).
Proof.
  unfold uint64_max, encodeUint, decodeUint. intros Hx.
  destruct (x <=? 127) eqn:Hsmall.
  - apply N.leb_le in Hsmall. simpl.
    rewrite to_N_to_byte by lia. apply N.leb_le in Hsmall. by rewrite Hsmall.
  - apply N.leb_gt in Hsmall.
    pose proof (big_endian_length 8 x) as Hlen.
    pose proof (big_endian_nonempty 7 x ltac:(lia)) as Hpos.
    set (bs := big_endian 8 x []) in *.
    cbn [app]. cbv beta iota zeta.
    rewrite to_N_to_byte by lia.
    assert ((256 - N.of_nat (length bs) <=? 127) = false) as -> by (apply N.leb_gt; lia).
    replace (N.to_nat (256 - (256 - N.of_nat (length bs)))) with (length bs) by lia.
    assert (((8 <? length bs)%nat) = false) as -> by (apply Nat.ltb_ge; lia).
    assert (((length (bs ++ rest) <? length bs)%nat) = false) as ->
      by (apply Nat.ltb_ge; rewrite length_app; lia).
    rewrite take_app_length, drop_app_length.
    subst bs. rewrite from_big_endian_inv; [done|]. simpl. lia.
Qed.

Lemma encodeUint_cons (x : N) : ∃ b bs, encodeUint x = b :: bs.
Proof. unfold encodeUint. destruct (x <=? 127); eauto. Qed.

Lemma decode_encode_bool (b : bool) (rest : bytes) :
  decodeBool (encodeBool b ++ rest) = Some (b, rest).
Proof.
  unfold decodeBool, encodeBool.
  rewrite decode_encode_uint by (unfold uint64_max; destruct b; lia).
  by destruct b.
Qed.

Lemma length_list_byte_of_string (s : string) :
  length (String.list_byte_of_string s) = String.length s.
Proof.
  unfold String.list_byte_of_string. rewrite length_map.
  induction s as [|a s IH]; simpl; [done|]. by rewrite IH.
Qed.

#[local] Arguments String.list_byte_of_string : simpl never.
#[local] Arguments String.string_of_list_byte : simpl never.

Lemma decode_encode_string (s : string) (rest : bytes) :
  N.of_nat (String.length s) ≤ uint64_max →
  decodeString (encodeString s ++ rest) = Some (s, rest).
Proof.
  intros Hs. unfold decodeString, encodeString.
  rewrite <- app_assoc, decode_encode_uint by done. simpl.
  rewrite length_app, length_list_byte_of_string.
  assert ((N.of_nat (String.length s + length rest) <? N.of_nat (String.length s)) = false)
    as -> by (apply N.ltb_ge; lia).
  rewrite Nat2N.id, <- (length_list_byte_of_string s).
  rewrite take_app_length, drop_app_length.
  by rewrite String.string_of_list_byte_of_string.
Qed.

(** The map the decoder builds from the entries in the order received. *)
Definition assigned (entries : list (string * bool)) (m : gmap string bool)
  : gmap string bool :=
  foldl (λ acc kv, <[kv.1 := kv.2]> acc) m entries.

Lemma decode_encode_entries (entries : list (string * bool)) (rest : bytes) m :
  Forall (λ kv, N.of_nat (String.length kv.1) ≤ uint64_max) entries →
  decodeEntries (length entries) (encodeEntries entries ++ rest) m
  = Some (assigned entries m, rest).
Proof.
  intros Hall. revert m. induction Hall as [|[k v] l Hk _ IH]; intros m; [done|].
  simpl. rewrite <- !app_assoc.
  rewrite decode_encode_string by done. simpl.
  rewrite decode_encode_bool. simpl. apply IH.
Qed.

Lemma assigned_list_to_map (entries : list (string * bool)) :
  assigned entries ∅ = list_to_map (reverse entries).
Proof.
  unfold assigned. induction entries as [|kv l IH] using rev_ind; [done|].
  rewrite foldl_snoc, reverse_snoc, IH. done.
Qed.

Lemma assigned_map_to_list (entries : list (string * bool)) (g : gmap string bool) :
  entries ≡ₚ map_to_list g → assigned entries ∅ = g.
Proof.
  intros Hperm. rewrite assigned_list_to_map.
  rewrite <- (list_to_map_to_list g). apply list_to_map_proper.
  - rewrite fmap_reverse, reverse_Permutation, Hperm.
    apply NoDup_fst_map_to_list.
  - by rewrite reverse_Permutation.
Qed.

Lemma decode_encode_map (entries : list (string * bool)) (rest : bytes) :
  N.of_nat (length entries) ≤ uint64_max →
  Forall (λ kv, N.of_nat (String.length kv.1) ≤ uint64_max) entries →
  decodeMap (encodeMap entries ++ rest) = Some (assigned entries ∅, rest).
Proof.
  intros Hn Hall. unfold decodeMap, encodeMap.
  rewrite <- app_assoc, decode_encode_uint by done. simpl.
  rewrite Nat2N.id. by apply decode_encode_entries.
Qed.

End gob.

(** ** Package authz *)

Module authz.

(** [Resource]: the [(kind, attribute, identifier)] triple. *)
Record Resource := {
  Kind : string;
  Attr : string;
  ID : string;
}.

(** The facets of [claims.AuthInfo], seen through the methods the client
    calls. A facet is absent when the interface value is [nil] ([None]) or
    when its [IsNil] method answers true. *)
Record AccessClaims := {
  AccessIsNil : bool;
  AccessSubject : string;
  AccessNamespace : string;
  Permissions : list string;
  DelegatedPermissions : list string;
}.

Record IdentityClaims := {
  IdentityIsNil : bool;
  Subject : string;
  IdentityNamespace : string;
}.

Record AuthInfo := {
  GetAccess : option AccessClaims;
  GetIdentity : option IdentityClaims;
}.

(** [accessClaims == nil || accessClaims.IsNil()] *)
Definition access_absent (a : option AccessClaims) : bool :=
  match a with
  | None => true
  | Some c => AccessIsNil c
  end.

(** [CheckRequest]; the pointer field [Resource] is [ReqResource], its
    [nil] is [None]. *)
Record CheckRequest := {
  Caller : AuthInfo;
  StackID : Z;
  Action : string;
  ReqResource : option Resource;
  Contextual : list Resource;
}.

(** [CheckRequest.Validate(accessTokenEnabled bool) error] *)
Definition Validate (r : CheckRequest) (accessTokenEnabled : bool) : option error :=
  if StackID r <=? 0 then Some ErrMissingStackID
  else if String.eqb (Action r) "" then Some ErrMissingAction
  else if accessTokenEnabled && access_absent (GetAccess (Caller r))
  then Some ErrMissingCaller
  else match GetIdentity (Caller r) with
       | Some idClaims =>
           if negb (IdentityIsNil idClaims) && String.eqb (Subject idClaims) ""
           then Some ErrMissingSubject
           else None
       | None => None
       end.

(** The [controller] struct: the cached permission set. A Go map field is
    [None] when it is the nil map. Membership in a [map[string]bool] used as
    a set is the value stored under the key, false when there is none. *)
Record controller := {
  Found : bool;
  Scopes : option (gmap string bool);
  Wildcard : option (gmap string bool);
}.

(** [m[k]] on a [map[string]bool] *)
Definition index (m : option (gmap string bool)) (k : string) : bool :=
  match m with
  | Some g => default false (g !! k)
  | None => false
  end.

(** [len(m)] *)
Definition len (m : option (gmap string bool)) : nat :=
  match m with
  | Some g => size g
  | None => 0%nat
  end.

(** [m[k] = true]; assigning into the nil map panics, and [newController]
    only assigns into maps it has made. *)
Definition assign (m : option (gmap string bool)) (k : string) : option (gmap string bool) :=
  match m with
  | Some g => Some (<[k := true]> g)
  | None => None
  end.

(** *** The cache codec: gob encoding of a [controller] *)

(** Modelled from the spec: the structural encoding of the [controller]
    struct, with gob's layout. A struct is sent field by field: for each
    field that is not the zero value of its type, the distance from the
    previous field sent (starting at -1), then the value; a zero distance
    ends the struct. A false [Found] and a nil map are zero values and are
    left out; a map that is empty but not nil is sent. *)
Fixpoint encodeFields (prev fieldnum : Z) (fields : list (option bytes)) : bytes :=
  match fields with
  | [] => []
  | None :: rest => encodeFields prev (fieldnum + 1) rest
  | Some value :: rest =>
      gob.encodeUint (Z.to_N (fieldnum - prev)) ++ value
        ++ encodeFields fieldnum (fieldnum + 1) rest
  end.

Definition encodeMapField (m : option (gmap string bool))
    (entries : list (string * bool)) : option bytes :=
  match m with
  | Some _ => Some (gob.encodeMap entries)
  | None => None
  end.

(** [gob.NewEncoder(&buf).Encode(ctrl)]: [scopes] and [wildcard] list the
    entries of the two maps in the order the encoder ranges over them. *)
Definition gobEncode (scopes wildcard : list (string * bool)) (ctrl : controller) : bytes :=
  encodeFields (-1) 0
    [ if Found ctrl then Some (gob.encodeBool true) else None;
      encodeMapField (Scopes ctrl) scopes;
      encodeMapField (Wildcard ctrl) wildcard ]
  ++ gob.encodeUint 0.

(** The decoder's loop over the fields of the struct. The field number
    grows at each turn and must stay below 3, so four turns always reach
    the end of the struct, the end of the input or an error. *)
Fixpoint decodeFields (turns : nat) (fieldnum : Z) (input : bytes) (ctrl : controller)
  : option controller :=
  match turns with
  | O => None
  | Datatypes.S turns' =>
      match input with
      | [] => Some ctrl
      | _ =>
          '(delta, rest) ← gob.decodeUint input;
          if (2 ^ 63 <=? delta)%N then None
          else if (delta =? 0)%N then Some ctrl
          else
            let fieldnum' := fieldnum + Z.of_N delta in
            if 3 <=? fieldnum' then None
            else if fieldnum' =? 0 then
              '(b, rest) ← gob.decodeBool rest;
              decodeFields turns' fieldnum' rest
                {| Found := b; Scopes := Scopes ctrl; Wildcard := Wildcard ctrl |}
            else if fieldnum' =? 1 then
              '(m, rest) ← gob.decodeMap rest;
              decodeFields turns' fieldnum' rest
                {| Found := Found ctrl; Scopes := Some m; Wildcard := Wildcard ctrl |}
            else
              '(m, rest) ← gob.decodeMap rest;
              decodeFields turns' fieldnum' rest
                {| Found := Found ctrl; Scopes := Scopes ctrl; Wildcard := Some m |}
      end
  end.

(** [gob.NewDecoder(bytes.NewReader(data)).Decode(&ctrl)] into a zero
    [controller]; [None] is a decoding error. Empty data is an error. *)
Definition gobDecode (data : bytes) : option controller :=
  match data with
  | [] => None
  | _ => decodeFields 4 (-1) data {| Found := false; Scopes := None; Wildcard := None |}
  end.

(** The entries of a map field in some order of iteration. *)
Definition ranges_over (entries : list (string * bool)) (m : option (gmap string bool))
  : Prop :=
  match m with
  | Some g => entries ≡ₚ map_to_list g
  | None => True
  end.

(** A map a Go program can hold: its size and the lengths of its keys are
    lengths of Go values, so they fit the 64-bit count gob sends. *)
Definition go_sized (m : option (gmap string bool)) : Prop :=
  match m with
  | Some g =>
      (N.of_nat (size g) ≤ gob.uint64_max)%N
      ∧ map_Forall (λ k _, (N.of_nat (String.length k) ≤ gob.uint64_max)%N) g
  | None => True
  end.

(** [p == action] for some [p] in the list: the two permission scans. *)
Fixpoint has_permission (perms : list string) (action : string) : bool :=
  match perms with
  | [] => false
  | p :: rest => if String.eqb p action then true else has_permission rest action
  end.

Section Client.
Context {S : Type}.

(** Functions of the packages [claims] and [authz] that the client calls
    and that live in other files: [claims.NamespaceMatches] (seen through
    the namespace of the claims), [Resource.Scope] and [splitScope]. *)
Variable NamespaceMatches : string → string → bool.
Variable Scope : Resource → string.
Variable splitScope : string → string * string * string.

(** The order in which the gob encoder ranges over a map. *)
Variable rangeMap : gmap string bool → list (string * bool).

(** [LegacyClientImpl] with the fields the decision uses. *)
Record LegacyClientImpl := {
  accessTokenAuthEnabled : bool;
  clientV1_Read : ReadRequest → S → (option ReadResponse * option error) * S;
  cache : Cache S;
  namespaceFmt : Z → string;
}.

(** The loop of [controller.Check] over the resources. *)
Fixpoint any_resource (r : controller) (resources : list Resource) : bool :=
  match resources with
  | [] => false
  | res :: rest =>
      if index (Wildcard r) (Kind res) || index (Scopes r) (Scope res)
      then true
      else any_resource r rest
  end.

(** [controller.Check(resources ...Resource) bool] *)
Definition controller_Check (r : controller) (resources : list Resource) : bool :=
  if negb (Found r) then false
  else if (length resources =? 0)%nat then true
  else if (len (Scopes r) =? 0)%nat && (len (Wildcard r) =? 0)%nat then false
  else if index (Wildcard r) "*" then true
  else any_resource r resources.

(** The loop of [newController] over [resp.Data]. *)
Fixpoint collect (data : list string) (res : controller) : controller :=
  match data with
  | [] => res
  | o :: rest =>
      let '(kind, _, id) := splitScope o in
      if String.eqb id "*"
      then collect rest {| Found := Found res; Scopes := Scopes res;
                           Wildcard := assign (Wildcard res) kind |}
      else collect rest {| Found := Found res; Scopes := assign (Scopes res) o;
                           Wildcard := Wildcard res |}
  end.

(** [newController(resp)]; a nil response is [None]. *)
Definition newController (resp : option ReadResponse) : controller :=
  match resp with
  | None => {| Found := false; Scopes := None; Wildcard := None |}
  | Some r =>
      if negb (RespFound r)
      then {| Found := false; Scopes := None; Wildcard := None |}
      else collect (RespData r)
             {| Found := true; Scopes := Some ∅; Wildcard := Some ∅ |}
  end.

(** [controllerCacheKey(stackID int64, subject, action string) string] *)
Definition controllerCacheKey (stackID : Z) (subject action : string) : string :=
  "read-" +:+ pretty stackID +:+ "-" +:+ subject +:+ "-" +:+ action.

(** [LegacyClientImpl.cacheController(ctx, key, ctrl) error];
    [ctrl] is never nil at the one call site. *)
Definition cacheController (c : LegacyClientImpl) (key : string) (ctrl : controller)
  : M S (option error) :=
  cacheSet (cache c) key
    (gobEncode (from_option rangeMap [] (Scopes ctrl))
               (from_option rangeMap [] (Wildcard ctrl)) ctrl)
    DefaultExpiration.

(** [LegacyClientImpl.getCachedController(ctx, key)], a [controller] pointer
    and an error. *)
Definition getCachedController (c : LegacyClientImpl) (key : string)
  : M S (option controller * option error) :=
  '(data, err) ← cacheGet (cache c) key;
  match err with
  | Some e => ret (None, Some e)
  | None =>
      match gobDecode data with
      | None => ret (None, Some ErrGobDecode)
      | Some ctrl => ret (Some ctrl, None)
      end
  end.

(** [c.clientV1.Read(outCtx, readReq)] *)
Definition clientRead (c : LegacyClientImpl) (req : ReadRequest)
  : M S (option ReadResponse * option error) :=
  call (EvRead req) (clientV1_Read c req).

(** [LegacyClientImpl.retrievePermissions(ctx, stackID, subject, action)], a
    [controller] pointer and an error. *)
Definition retrievePermissions (c : LegacyClientImpl) (stackID : Z)
    (subject action : string) : M S (option controller * option error) :=
  let key := controllerCacheKey stackID subject action in
  '(ctrl, err) ← getCachedController c key;
  let not_found := match err with
                   | None => false
                   | Some e => errors_Is e ErrNotFound
                   end in
  if negb not_found then ret (ctrl, err)
  else
    let readReq := {| StackId := stackID; ReadAction := action;
                      ReadSubject := subject |} in
    '(resp, err) ← clientRead c readReq;
    match err with
    | Some _ => ret (None, Some ErrReadPermission)
    | None =>
        let res := newController resp in
        err ← cacheController c key res;
        ret (Some res, err)
    end.

(** [LegacyClientImpl.validateNamespace(caller, stackID) bool] *)
Definition validateNamespace (c : LegacyClientImpl) (caller : AuthInfo) (stackID : Z)
  : bool :=
  let expectedNamespace := namespaceFmt c stackID in
  let accessTokenMatch :=
    negb (accessTokenAuthEnabled c)
    || match GetAccess caller with
       | Some accessClaims =>
           negb (AccessIsNil accessClaims)
           && NamespaceMatches (AccessNamespace accessClaims) expectedNamespace
       | None => false
       end in
  let idTokenMatch :=
    match GetIdentity caller with
    | Some idClaims =>
        IdentityIsNil idClaims
        || NamespaceMatches (IdentityNamespace idClaims) expectedNamespace
    | None => true
    end in
  accessTokenMatch && idTokenMatch.

(** The service-level branch of [Check]: no end-user identity. *)
Definition checkService (c : LegacyClientImpl) (req : CheckRequest)
  : bool * option error :=
  if negb (accessTokenAuthEnabled c) then (true, None)
  else match GetAccess (Caller req) with
       | Some accessClaims =>
           if AccessIsNil accessClaims then (false, Some ErrMissingCaller)
           else (has_permission (Permissions accessClaims) (Action req), None)
       | None => (false, Some ErrMissingCaller)
       end.

(** The delegation test on the calling service when an end user is present:
    [None] lets the check go on, [Some r] is returned at once. *)
Definition checkDelegation (c : LegacyClientImpl) (req : CheckRequest)
  : option (bool * option error) :=
  if accessTokenAuthEnabled c then
    match GetAccess (Caller req) with
    | Some accessClaims =>
        if AccessIsNil accessClaims then Some (false, Some ErrMissingCaller)
        else if has_permission (DelegatedPermissions accessClaims) (Action req)
             then None
             else Some (false, None)
    | None => Some (false, Some ErrMissingCaller)
    end
  else None.

(** The evaluation of a resolved permission set, the tail of [Check]:
    [append(req.Contextual, *req.Resource)] is [Contextual ++ [resource]]. *)
Definition evaluate (req : CheckRequest) (res : controller) : bool :=
  if negb (Found res) then false
  else match ReqResource req with
       | None => true
       | Some resource => controller_Check res (Contextual req ++ [resource])
       end.

(** [LegacyClientImpl.Check(ctx, req) (bool, error)] *)
Definition Check (c : LegacyClientImpl) (req : CheckRequest)
  : M S (bool * option error) :=
  match Validate req (accessTokenAuthEnabled c) with
  | Some err => ret (false, Some err)
  | None =>
      if negb (validateNamespace c (Caller req) (StackID req))
      then ret (false, None)
      else
        match GetIdentity (Caller req) with
        | None => ret (checkService c req)
        | Some identityClaims =>
            if IdentityIsNil identityClaims then ret (checkService c req)
            else
              match checkDelegation c req with
              | Some r => ret r
              | None =>
                  '(res, err) ← retrievePermissions c (StackID req) (Subject identityClaims)
                      (Action req);
                  match err, res with
                  | Some e, _ => ret (false, Some e)
                  | None, Some res => ret (evaluate req res, None)
                  | None, None =>
                      (* a nil dereference in Go; never reached, see
                         [retrievePermissions_not_nil] below *)
                      ret (false, Some (ErrLib "nil controller"))
                  end
              end
        end
  end.

(** *** The cache codec round trip *)

(** Decide the guards of the decoder that no longer mention a variable. *)
Ltac closed_guards :=
  repeat match goal with
    | |- context [if ?c then _ else _] =>
        let v := eval vm_compute in c in
        first [constr_eq v true | constr_eq v false];
        replace c with v by (vm_compute; reflexivity); cbv iota
    end.

(** Four turns are all the decoder can take: more change nothing. *)
Lemma decodeFields_more_turns turns extra fieldnum input ctrl :
  (Z.to_nat (2 - fieldnum) < turns)%nat →
  decodeFields (turns + extra) fieldnum input ctrl = decodeFields turns fieldnum input ctrl.
Proof.
  revert fieldnum input ctrl.
  induction turns as [|turns IH]; intros fieldnum input ctrl Hturns; [lia|].
  cbn [Nat.add decodeFields]. destruct input as [|b input]; [done|].
  destruct (gob.decodeUint (b :: input)) as [[delta rest]|]; [|done].
  cbn [mbind option_bind].
  destruct (2 ^ 63 <=? delta)%N; [done|].
  destruct (N.eqb_spec delta 0) as [|Hdelta]; [done|]. cbv zeta.
  destruct (Z.leb_spec 3 (fieldnum + Z.of_N delta)) as [|Hnum]; [done|].
  assert (Z.to_nat (2 - (fieldnum + Z.of_N delta)) < turns)%nat as Hnext by lia.
  destruct (fieldnum + Z.of_N delta =? 0);
    [|destruct (fieldnum + Z.of_N delta =? 1)].
  - destruct (gob.decodeBool rest) as [[v rest']|]; [|done]. by apply IH.
  - destruct (gob.decodeMap rest) as [[m rest']|]; [|done]. by apply IH.
  - destruct (gob.decodeMap rest) as [[m rest']|]; [|done]. by apply IH.
Qed.

(** One turn of the decoder's loop on a field distance [delta]. *)
Lemma decodeFields_turn turns fieldnum (delta : N) (rest : bytes) ctrl :
  (delta ≤ 3)%N →
  decodeFields (Datatypes.S turns) fieldnum (gob.encodeUint delta ++ rest) ctrl =
    if (delta =? 0)%N then Some ctrl
    else
      let fieldnum' := fieldnum + Z.of_N delta in
      if 3 <=? fieldnum' then None
      else if fieldnum' =? 0 then
        '(b, rest) ← gob.decodeBool rest;
        decodeFields turns fieldnum' rest
          {| Found := b; Scopes := Scopes ctrl; Wildcard := Wildcard ctrl |}
      else if fieldnum' =? 1 then
        '(m, rest) ← gob.decodeMap rest;
        decodeFields turns fieldnum' rest
          {| Found := Found ctrl; Scopes := Some m; Wildcard := Wildcard ctrl |}
      else
        '(m, rest) ← gob.decodeMap rest;
        decodeFields turns fieldnum' rest
          {| Found := Found ctrl; Scopes := Scopes ctrl; Wildcard := Some m |}.
Proof.
  intros Hd.
  pose proof (gob.decode_encode_uint delta rest) as Hdec.
  destruct (gob.encodeUint_cons delta) as (b & bs & E). rewrite E in *.
  cbn [decodeFields app] in *. rewrite Hdec by (unfold gob.uint64_max; lia).
  cbn [mbind option_bind].
  assert ((2 ^ 63 <=? delta)%N = false) as -> by (apply N.leb_gt; lia).
  done.
Qed.

Lemma gobDecode_fields (delta : N) (rest : bytes) :
  gobDecode (gob.encodeUint delta ++ rest) =
  decodeFields 4 (-1) (gob.encodeUint delta ++ rest)
    {| Found := false; Scopes := None; Wildcard := None |}.
Proof.
  destruct (gob.encodeUint_cons delta) as (b & bs & E). rewrite E. done.
Qed.

(** A sized map field decodes to the map whose entries were sent. *)
Lemma decode_map_field (entries : list (string * bool)) (g : gmap string bool) rest :
  ranges_over entries (Some g) → go_sized (Some g) →
  gob.decodeMap (gob.encodeMap entries ++ rest) = Some (g, rest).
Proof.
  simpl. intros Hperm [Hsize Hkeys].
  rewrite gob.decode_encode_map.
  - by rewrite (gob.assigned_map_to_list _ g).
  - by rewrite Hperm, length_map_to_list.
  - rewrite Hperm. apply map_Forall_to_list in Hkeys.
    eapply Forall_impl; [exact Hkeys|]. by intros [k v].
Qed.

(** C6. Encoding a permission set with the cache codec and decoding the
    bytes gives back the permission set: same [Found] flag, same exact-scope
    map and same wildcard map, a nil map staying nil and an empty map
    staying empty, in whatever order the encoder ranges over the two maps. *)
Theorem gob_round_trip (ctrl : controller) (scopes wildcard : list (string * bool)) :
  ranges_over scopes (Scopes ctrl) → ranges_over wildcard (Wildcard ctrl) →
  go_sized (Scopes ctrl) → go_sized (Wildcard ctrl) →
  gobDecode (gobEncode scopes wildcard ctrl) = Some ctrl.
Proof.
  destruct ctrl as [found [gs|] [gw|]]; intros Hs Hw Hss Hsw;
    unfold gobEncode; destruct found; cbn [Found Scopes Wildcard encodeFields encodeMapField];
    rewrite <- (app_nil_r (gob.encodeUint 0)); rewrite <- ?app_assoc; cbn [app].
  all: repeat match goal with
       | |- context [Z.to_N ?e] =>
           let v := eval vm_compute in (Z.to_N e) in
           replace (Z.to_N e) with v by reflexivity
       end.
  all: rewrite gobDecode_fields.
  all: repeat (rewrite decodeFields_turn by lia; cbv beta zeta; closed_guards;
               rewrite ?gob.decode_encode_bool;
               rewrite ?(decode_map_field _ gs) by done;
               rewrite ?(decode_map_field _ gw) by done;
               cbn [mbind option_bind Found Scopes Wildcard]).
  all: done.
Qed.

(** *** Matching *)

Lemma has_permission_In (perms : list string) (action : string) :
  has_permission perms action = true ↔ In action perms.
Proof.
  induction perms as [|p rest IH]; simpl; [naive_solver|].
  destruct (String.eqb_spec p action); naive_solver.
Qed.

Lemma index_empty (m : option (gmap string bool)) (k : string) :
  len m = 0%nat → index m k = false.
Proof.
  destruct m as [g|]; simpl; [|done].
  intros ->%map_size_empty_inv. by rewrite lookup_empty.
Qed.

Lemma any_resource_exists (r : controller) (resources : list Resource) :
  any_resource r resources = true ↔
  ∃ x, In x resources
       ∧ (index (Wildcard r) (Kind x) = true ∨ index (Scopes r) (Scope x) = true).
Proof.
  induction resources as [|res rest IH]; simpl; [naive_solver|].
  destruct (index (Wildcard r) (Kind res) || index (Scopes r) (Scope res)) eqn:E.
  - apply orb_true_iff in E. naive_solver.
  - apply orb_false_iff in E as [E1 E2]. rewrite IH.
    split; [naive_solver|]. intros (x & [<-|Hin] & Hx); [|naive_solver].
    destruct Hx; congruence.
Qed.

(** The permission set's own check on a list of resources that is not
    empty: a disjunction of set memberships. *)
Lemma controller_Check_matches (r : controller) (resources : list Resource) :
  Found r = true → resources ≠ [] →
  controller_Check r resources = true ↔
  index (Wildcard r) "*" = true
  ∨ ∃ x, In x resources
         ∧ (index (Wildcard r) (Kind x) = true ∨ index (Scopes r) (Scope x) = true).
Proof.
  intros Hfound Hne. unfold controller_Check. rewrite Hfound. simpl.
  destruct resources as [|r0 rest]; [done|]. cbn [length Nat.eqb].
  destruct ((len (Scopes r) =? 0)%nat && (len (Wildcard r) =? 0)%nat) eqn:Hempty.
  - apply andb_true_iff in Hempty as [Hs%Nat.eqb_eq Hw%Nat.eqb_eq].
    split; [done|]. intros [H|(x & _ & [H|H])];
      rewrite index_empty in H by done; done.
  - destruct (index (Wildcard r) "*") eqn:Hstar; [split; auto|].
    rewrite any_resource_exists. split; [auto|]. by intros [?|?].
Qed.

(** *** Running the client *)

Ltac run :=
  unfold mbind, M_bind, bind, ret, call in *;
  cbn beta iota zeta delta [fst snd w_state w_log negb andb orb] in *.

(** A decoding error is not the cache's not-found sentinel. *)
Lemma decode_error_is_not_ErrNotFound : errors_Is ErrGobDecode ErrNotFound = false.
Proof. reflexivity. Qed.

(** The resolution step never hands back a nil permission set without an
    error, so [Check] never dereferences nil. *)
Lemma retrievePermissions_not_nil c stackID subject action w w' :
  retrievePermissions c stackID subject action w ≠ ((None, None), w').
Proof.
  unfold retrievePermissions, getCachedController, cacheGet, clientRead,
    cacheController, cacheSet. run.
  destruct (cache_Get _ _ _) as [[data [e|]] s1]; run.
  - destruct (errors_Is e ErrNotFound); run; [|congruence].
    destruct (clientV1_Read _ _ _) as [[resp [e'|]] s2]; run; [congruence|].
    destruct (cache_Set _ _ _ _ _) as [err s3]. congruence.
  - destruct (gobDecode data); run; [congruence|].
    rewrite decode_error_is_not_ErrNotFound. run. congruence.
Qed.

(** The calling service passes the delegation gate exactly when access-token
    checking is off or the action is among its delegated permissions. *)
Lemma checkDelegation_passes c req :
  Validate req (accessTokenAuthEnabled c) = None →
  checkDelegation c req = None ↔
  (accessTokenAuthEnabled c = true →
   ∃ a, GetAccess (Caller req) = Some a ∧ In (Action req) (DelegatedPermissions a)).
Proof.
  unfold Validate, checkDelegation, access_absent. intros Hv.
  destruct (StackID req <=? 0); [done|].
  destruct (String.eqb (Action req) ""); [done|].
  destruct (accessTokenAuthEnabled c); simpl in *; [|naive_solver].
  destruct (GetAccess (Caller req)) as [a|]; [|done].
  destruct (AccessIsNil a); [done|].
  destruct (has_permission (DelegatedPermissions a) (Action req)) eqn:E.
  - apply has_permission_In in E. naive_solver.
  - split; [done|]. intros H. destruct (H eq_refl) as (a' & [= <-] & Hin).
    apply has_permission_In in Hin. congruence.
Qed.

(** C1. A request that passes validation and the namespace check, carries
    an end-user identity and gets a permission set resolved for it (the
    calling service holding the delegated permission when access-token
    checking is on): [Check] denies when [Found] is false, allows when there
    is no primary resource, and otherwise allows exactly when ["*"] is in the
    wildcard set or some resource among the primary and the contextual ones
    has its kind in the wildcard set or its scope in the exact-scope set. *)
Theorem Check_evaluates_permission_set c req w idClaims res w' :
  Validate req (accessTokenAuthEnabled c) = None →
  validateNamespace c (Caller req) (StackID req) = true →
  GetIdentity (Caller req) = Some idClaims → IdentityIsNil idClaims = false →
  (accessTokenAuthEnabled c = true →
   ∃ a, GetAccess (Caller req) = Some a ∧ In (Action req) (DelegatedPermissions a)) →
  retrievePermissions c (StackID req) (Subject idClaims) (Action req) w
    = ((Some res, None), w') →
  ∃ allowed, Check c req w = ((allowed, None), w')
    ∧ (Found res = false → allowed = false)
    ∧ (Found res = true → ReqResource req = None → allowed = true)
    ∧ (Found res = true → ∀ resource, ReqResource req = Some resource →
       allowed = true ↔
       index (Wildcard res) "*" = true
       ∨ ∃ x, In x (resource :: Contextual req)
              ∧ (index (Wildcard res) (Kind x) = true
                 ∨ index (Scopes res) (Scope x) = true)).
Proof.
  intros Hv Hns Hid Hnil Hdel Hres.
  apply checkDelegation_passes in Hdel; [|done].
  exists (evaluate req res). split.
  { unfold Check. rewrite Hv, Hns, Hid, Hnil, Hdel. simpl. run. by rewrite Hres. }
  unfold evaluate. split; [by intros ->|]. split; [by intros -> ->|].
  intros Hfound resource Hr. rewrite Hfound, Hr. simpl.
  rewrite controller_Check_matches by (done || by destruct (Contextual req)).
  apply or_iff_compat_l. split; intros (x & Hin & Hx); exists x; split; try done.
  - apply in_app_or in Hin. simpl in *. tauto.
  - apply in_or_app. simpl in *. tauto.
Qed.

(** The namespace check fails exactly on a mismatch of a facet it looks at. *)
Lemma validateNamespace_false c req :
  Validate req (accessTokenAuthEnabled c) = None →
  validateNamespace c (Caller req) (StackID req) = false ↔
  (accessTokenAuthEnabled c = true
   ∧ ∃ a, GetAccess (Caller req) = Some a
          ∧ NamespaceMatches (AccessNamespace a) (namespaceFmt c (StackID req)) = false)
  ∨ (∃ i, GetIdentity (Caller req) = Some i ∧ IdentityIsNil i = false
          ∧ NamespaceMatches (IdentityNamespace i) (namespaceFmt c (StackID req)) = false).
Proof.
  unfold Validate, validateNamespace, access_absent. intros Hv.
  destruct (StackID req <=? 0); [done|].
  destruct (String.eqb (Action req) ""); [done|].
  set (ns := namespaceFmt c (StackID req)).
  assert (match GetIdentity (Caller req) with
          | Some idClaims =>
              IdentityIsNil idClaims || NamespaceMatches (IdentityNamespace idClaims) ns
          | None => true
          end = false ↔
          ∃ i, GetIdentity (Caller req) = Some i ∧ IdentityIsNil i = false
               ∧ NamespaceMatches (IdentityNamespace i) ns = false) as Hid.
  { destruct (GetIdentity (Caller req)) as [i|].
    - rewrite orb_false_iff. split; [eauto|]. by intros (i' & [= <-] & ? & ?).
    - split; [done|]. by intros (i' & [=] & _). }
  rewrite andb_false_iff, Hid. apply or_iff_compat_r.
  destruct (accessTokenAuthEnabled c); simpl in *.
  - destruct (GetAccess (Caller req)) as [a|]; [|done].
    destruct (AccessIsNil a); [done|]. simpl.
    split; [eauto|]. by intros [_ (a' & [= <-] & ?)].
  - split; [done|]. by intros [[=] _].
Qed.

(** C2. A request that passes validation and whose caller claims do not
    match the namespace rendered from the stack identifier (the access
    claims when access-token checking is on, the identity claims when
    present) is denied without an error, and nothing leaves the process: the
    world, with its log of cache and remote calls, is as it was. *)
Theorem Check_namespace_mismatch_denies c req w :
  Validate req (accessTokenAuthEnabled c) = None →
  (accessTokenAuthEnabled c = true
   ∧ ∃ a, GetAccess (Caller req) = Some a
          ∧ NamespaceMatches (AccessNamespace a) (namespaceFmt c (StackID req)) = false)
  ∨ (∃ i, GetIdentity (Caller req) = Some i ∧ IdentityIsNil i = false
          ∧ NamespaceMatches (IdentityNamespace i) (namespaceFmt c (StackID req)) = false) →
  Check c req w = ((false, None), w).
Proof.
  intros Hv Hmis. apply validateNamespace_false in Hmis; [|done].
  unfold Check. by rewrite Hv, Hmis.
Qed.

(** What validation answers: the error of the first check that fails, in
    the order stack identifier, action, caller, subject. *)
Lemma Validate_cases req enabled :
  let badStackID := StackID req ≤ 0 in
  let badAction := Action req = "" in
  let badCaller := enabled = true ∧ access_absent (GetAccess (Caller req)) = true in
  let badSubject :=
    ∃ i, GetIdentity (Caller req) = Some i ∧ IdentityIsNil i = false ∧ Subject i = "" in
  match Validate req enabled with
  | Some err =>
      err = ErrMissingStackID ∧ badStackID
      ∨ err = ErrMissingAction ∧ ¬ badStackID ∧ badAction
      ∨ err = ErrMissingCaller ∧ ¬ badStackID ∧ ¬ badAction ∧ badCaller
      ∨ err = ErrMissingSubject ∧ ¬ badStackID ∧ ¬ badAction ∧ ¬ badCaller ∧ badSubject
  | None => ¬ badStackID ∧ ¬ badAction ∧ ¬ badCaller ∧ ¬ badSubject
  end.
Proof.
  cbv zeta. unfold Validate.
  destruct (Z.leb_spec (StackID req) 0) as [Hs|Hs]; [auto|].
  assert (¬ StackID req ≤ 0) as Hs' by lia.
  destruct (String.eqb_spec (Action req) "") as [Ha|Ha]; [auto 6|].
  destruct (enabled && access_absent (GetAccess (Caller req))) eqn:Hc.
  { apply andb_true_iff in Hc. auto 8. }
  assert (¬ (enabled = true ∧ access_absent (GetAccess (Caller req)) = true)) as Hnc.
  { intros [H1 H2]. rewrite H1, H2 in Hc. done. }
  destruct (GetIdentity (Caller req)) as [i|] eqn:Hi.
  - destruct (IdentityIsNil i) eqn:Hnil; simpl.
    + repeat split; try done. intros (i' & [= <-] & ? & ?). congruence.
    + destruct (String.eqb_spec (Subject i) "") as [Hsub|Hsub].
      * right; right; right. repeat split; try done. eauto.
      * repeat split; try done. intros (i' & [= <-] & ? & ?). congruence.
  - repeat split; try done. by intros (i' & [=] & _).
Qed.

(** C3. A request that fails validation is refused at once with the error
    of the first check it fails, in the order stack identifier, action,
    caller, subject, and nothing leaves the process: a stack identifier that
    is not positive gives [ErrMissingStackID], an empty action
    [ErrMissingAction], absent access claims while access-token checking is
    on [ErrMissingCaller], an identity facet with an empty subject
    [ErrMissingSubject]; the error always names a check the request fails,
    and the world, with its log, is as it was. *)
Theorem Check_invalid_request_fails_fast c req w :
  let refused err := Check c req w = ((false, Some err), w) in
  let badStackID := StackID req ≤ 0 in
  let badAction := Action req = "" in
  let badCaller :=
    accessTokenAuthEnabled c = true ∧ access_absent (GetAccess (Caller req)) = true in
  let badSubject :=
    ∃ i, GetIdentity (Caller req) = Some i ∧ IdentityIsNil i = false ∧ Subject i = "" in
  (badStackID → refused ErrMissingStackID)
  ∧ (¬ badStackID → badAction → refused ErrMissingAction)
  ∧ (¬ badStackID → ¬ badAction → badCaller → refused ErrMissingCaller)
  ∧ (¬ badStackID → ¬ badAction → ¬ badCaller → badSubject → refused ErrMissingSubject)
  ∧ (badStackID ∨ badAction ∨ badCaller ∨ badSubject →
     ∃ err, Validate req (accessTokenAuthEnabled c) = Some err ∧ refused err)
  ∧ (∀ err, Validate req (accessTokenAuthEnabled c) = Some err →
     err = ErrMissingStackID ∧ badStackID ∨ err = ErrMissingAction ∧ badAction
     ∨ err = ErrMissingCaller ∧ badCaller ∨ err = ErrMissingSubject ∧ badSubject).
Proof.
  cbv zeta. pose proof (Validate_cases req (accessTokenAuthEnabled c)) as Hcases.
  cbv zeta in Hcases. unfold Check.
  destruct (Validate req (accessTokenAuthEnabled c)) as [err|].
  - destruct Hcases as [[-> ?]|[(-> & ? & ?)|[(-> & ? & ? & ?)|(-> & ? & ? & ? & ?)]]];
      repeat split; try (intros; tauto); try (intros; eexists; split; reflexivity);
      intros err [= <-]; tauto.
  - destruct Hcases as (? & ? & ? & ?).
    repeat split; try (intros; tauto); intros err [=].
Qed.

(** Past its [Found] guard, [controller.Check] allows any list of resources
    once ["*"] is in the wildcard set. *)
Lemma controller_Check_star (r : controller) (resources : list Resource) :
  Found r = true → index (Wildcard r) "*" = true →
  controller_Check r resources = true.
Proof.
  intros Hfound Hstar. unfold controller_Check. rewrite Hfound, Hstar. simpl.
  destruct (length resources =? 0)%nat; [done|].
  destruct (len (Scopes r) =? 0)%nat; [|done].
  destruct (Nat.eqb_spec (len (Wildcard r)) 0) as [Hw|Hw]; [|done].
  by rewrite (index_empty _ _ Hw) in Hstar.
Qed.

(** A permission set built from a read response has a wildcard set only
    when its [Found] flag is true. *)
Lemma collect_Found data res : Found (collect data res) = Found res.
Proof.
  revert res. induction data as [|o rest IH]; intros res; simpl; [done|].
  destruct (splitScope o) as [[kind attr] id].
  destruct (String.eqb id "*"); by rewrite IH.
Qed.

Lemma newController_wildcard_Found resp k :
  index (Wildcard (newController resp)) k = true → Found (newController resp) = true.
Proof.
  unfold newController. destruct resp as [r|]; [|done].
  destruct (RespFound r); simpl; [|done].
  intros _. by rewrite collect_Found.
Qed.

(** C4. A permission set is what [newController] builds from a read
    response, nil included. Whenever the wildcard set of such a set holds
    ["*"], [controller.Check] returns true for any list of resources, empty
    or not and of any kinds: a built set has a wildcard set only when its
    [Found] flag is true, so the guard on [Found] never stands in the
    way. *)
Theorem controller_Check_universal_wildcard (resp : option ReadResponse)
    (resources : list Resource) :
  index (Wildcard (newController resp)) "*" = true →
  controller_Check (newController resp) resources = true.
Proof.
  intros Hstar. apply controller_Check_star; [|done].
  by apply (newController_wildcard_Found resp "*").
Qed.

(** C5. When the cache answers the permission-set lookup with bytes that do
    not decode, or with an error that is not the not-found sentinel, the
    resolution step returns that error after the one cache read, without a
    remote read and without a cache write, and [Check] hands the error to
    its caller. *)
Theorem retrievePermissions_surfaces_cache_fault c req w idClaims data cerr s' err :
  Validate req (accessTokenAuthEnabled c) = None →
  validateNamespace c (Caller req) (StackID req) = true →
  GetIdentity (Caller req) = Some idClaims → IdentityIsNil idClaims = false →
  (accessTokenAuthEnabled c = true →
   ∃ a, GetAccess (Caller req) = Some a ∧ In (Action req) (DelegatedPermissions a)) →
  let key := controllerCacheKey (StackID req) (Subject idClaims) (Action req) in
  cache_Get (cache c) key (w_state w) = ((data, cerr), s') →
  (cerr = None ∧ gobDecode data = None ∧ err = ErrGobDecode)
  ∨ (cerr = Some err ∧ errors_Is err ErrNotFound = false) →
  let w' := {| w_state := s'; w_log := w_log w ++ [EvCacheGet key] |} in
  retrievePermissions c (StackID req) (Subject idClaims) (Action req) w
    = ((None, Some err), w')
  ∧ Check c req w = ((false, Some err), w').
Proof.
  intros Hv Hns Hid Hnil Hdel key Hget Hfault w'.
  apply checkDelegation_passes in Hdel; [|done].
  assert (retrievePermissions c (StackID req) (Subject idClaims) (Action req) w
          = ((None, Some err), w')) as Hres.
  { unfold retrievePermissions, getCachedController, cacheGet. run.
    fold key. rewrite Hget. run.
    destruct Hfault as [(-> & Hdec & ->)|[-> Hnf]]; run.
    - rewrite Hdec. run. by rewrite decode_error_is_not_ErrNotFound.
    - by rewrite Hnf. }
  split; [done|].
  unfold Check. rewrite Hv, Hns, Hid, Hnil, Hdel. simpl. run. by rewrite Hres.
Qed.

(** *** Further properties of the decision engine *)

(** X1. Without an end-user identity the check is on the service alone: with
    access-token checking off every request is allowed, with it on the
    request is allowed exactly when the action is among the service's own
    permissions; in both cases nothing leaves the process. *)
Theorem Check_without_identity c req w :
  Validate req (accessTokenAuthEnabled c) = None →
  validateNamespace c (Caller req) (StackID req) = true →
  (∀ i, GetIdentity (Caller req) = Some i → IdentityIsNil i = true) →
  ∃ allowed, Check c req w = ((allowed, None), w)
    ∧ (accessTokenAuthEnabled c = false → allowed = true)
    ∧ (accessTokenAuthEnabled c = true →
       ∃ a, GetAccess (Caller req) = Some a ∧ AccessIsNil a = false
            ∧ (allowed = true ↔ In (Action req) (Permissions a))).
Proof.
  intros Hv Hns Hid. unfold Check. rewrite Hv, Hns. simpl.
  assert (match GetIdentity (Caller req) with
          | Some identityClaims =>
              if IdentityIsNil identityClaims then ret (checkService c req)
              else match checkDelegation c req with
                   | Some r => ret r
                   | None =>
                       '(res, err) ← retrievePermissions c (StackID req)
                                       (Subject identityClaims) (Action req);
                       match err, res with
                       | Some e, _ => ret (false, Some e)
                       | None, Some res => ret (evaluate req res, None)
                       | None, None => ret (false, Some (ErrLib "nil controller"))
                       end
                   end
          | None => ret (checkService c req)
          end w = (checkService c req, w)) as ->.
  { destruct (GetIdentity (Caller req)) as [i|]; [|done]. by rewrite (Hid i eq_refl). }
  unfold checkService. unfold Validate, access_absent in Hv.
  destruct (StackID req <=? 0); [done|].
  destruct (String.eqb (Action req) ""); [done|].
  destruct (accessTokenAuthEnabled c); simpl in *.
  - destruct (GetAccess (Caller req)) as [a|]; [|done].
    destruct (AccessIsNil a) eqn:Hnil; [done|].
    eexists. split; [reflexivity|]. split; [done|]. intros _.
    exists a. repeat split; try done; apply has_permission_In.
  - exists true. repeat split; done.
Qed.

(** X2. With an end-user identity and access-token checking on, a service that
    does not hold the action among its delegated permissions is denied
    without an error, before any permission lookup. *)
Theorem Check_delegation_denied c req w i a :
  Validate req (accessTokenAuthEnabled c) = None →
  validateNamespace c (Caller req) (StackID req) = true →
  GetIdentity (Caller req) = Some i → IdentityIsNil i = false →
  accessTokenAuthEnabled c = true →
  GetAccess (Caller req) = Some a → ¬ In (Action req) (DelegatedPermissions a) →
  Check c req w = ((false, None), w).
Proof.
  intros Hv Hns Hid Hnil Hen Ha Hnot. unfold Check, checkDelegation.
  rewrite Hv, Hns, Hid, Hnil, Hen, Ha. simpl.
  unfold Validate, access_absent in Hv. rewrite Hen, Ha in Hv.
  destruct (StackID req <=? 0); [done|].
  destruct (String.eqb (Action req) ""); [done|]. simpl in Hv.
  destruct (AccessIsNil a); [done|].
  destruct (has_permission (DelegatedPermissions a) (Action req)) eqn:E; [|done].
  apply has_permission_In in E. done.
Qed.

(** X3. One call of [Check] reads the cache at most once, reads the
    authorization service at most once and only after the cache read,
    writes the cache at most once, only after the service read, under the
    key it looked up and with the default expiry, and never deletes. *)
Theorem Check_call_pattern c req w :
  ∃ key readReq data,
    In (w_log (snd (Check c req w)))
       [ w_log w;
         w_log w ++ [EvCacheGet key];
         w_log w ++ [EvCacheGet key; EvRead readReq];
         w_log w ++ [EvCacheGet key; EvRead readReq;
                     EvCacheSet key data DefaultExpiration] ].
Proof.
  unfold Check.
  destruct (Validate req (accessTokenAuthEnabled c));
    [exists "", {| StackId := 0; ReadAction := ""; ReadSubject := "" |}, []; simpl; auto|].
  destruct (negb (validateNamespace c (Caller req) (StackID req)));
    [exists "", {| StackId := 0; ReadAction := ""; ReadSubject := "" |}, []; simpl; auto|].
  destruct (GetIdentity (Caller req)) as [i|];
    [|exists "", {| StackId := 0; ReadAction := ""; ReadSubject := "" |}, []; simpl; auto].
  destruct (IdentityIsNil i);
    [exists "", {| StackId := 0; ReadAction := ""; ReadSubject := "" |}, []; simpl; auto|].
  destruct (checkDelegation c req);
    [exists "", {| StackId := 0; ReadAction := ""; ReadSubject := "" |}, []; simpl; auto|].
  unfold retrievePermissions, getCachedController, cacheGet, clientRead,
    cacheController, cacheSet. run.
  set (key := controllerCacheKey (StackID req) (Subject i) (Action req)).
  set (readReq := {| StackId := StackID req; ReadAction := Action req;
                     ReadSubject := Subject i |}).
  destruct (cache_Get (cache c) key (w_state w)) as [[data [e|]] s1]; run.
  - destruct (errors_Is e ErrNotFound); run;
      [|exists key, readReq, []; simpl; auto].
    destruct (clientV1_Read c readReq s1) as [[resp [e'|]] s2]; run;
      [exists key, readReq, []; simpl; rewrite <- app_assoc; auto|].
    match goal with
    | |- context [cache_Set (cache c) key ?d DefaultExpiration s2] =>
        exists key, readReq, d;
        destruct (cache_Set (cache c) key d DefaultExpiration s2) as [[e''|] s3]
    end; simpl; rewrite <- !app_assoc; simpl; auto.
  - exists key, readReq, [].
    destruct (gobDecode data); run; [simpl; auto|].
    rewrite decode_error_is_not_ErrNotFound. run. simpl; auto.
Qed.

(** X4. On a cache miss the resolution step reads the service once, turns the
    answer into a permission set, writes its encoding under the same key
    with the default expiry, and returns the set together with the error of
    that write, if any. *)
Theorem retrievePermissions_miss c stackID subject action w data e s1 resp s2 cerr s3 :
  let key := controllerCacheKey stackID subject action in
  let readReq := {| StackId := stackID; ReadAction := action; ReadSubject := subject |} in
  let res := newController resp in
  let encoded := gobEncode (from_option rangeMap [] (Scopes res))
                           (from_option rangeMap [] (Wildcard res)) res in
  cache_Get (cache c) key (w_state w) = ((data, Some e), s1) →
  errors_Is e ErrNotFound = true →
  clientV1_Read c readReq s1 = ((resp, None), s2) →
  cache_Set (cache c) key encoded DefaultExpiration s2 = (cerr, s3) →
  retrievePermissions c stackID subject action w
  = ((Some res, cerr),
     {| w_state := s3;
        w_log := w_log w ++ [EvCacheGet key; EvRead readReq;
                             EvCacheSet key encoded DefaultExpiration] |}).
Proof.
  intros key readReq res encoded Hget Hnf Hread Hset.
  unfold retrievePermissions, getCachedController, cacheGet, clientRead,
    cacheController, cacheSet. run.
  fold key. rewrite Hget. run. rewrite Hnf. run.
  fold readReq. rewrite Hread. run.
  fold res. fold encoded. rewrite Hset. by rewrite <- !app_assoc.
Qed.

(** X5. When the service read fails on a cache miss, whatever its error, the
    resolution step answers [ErrReadPermission] and writes nothing to the
    cache. *)
Theorem retrievePermissions_read_failure c stackID subject action w data e s1 resp rerr s2 :
  let key := controllerCacheKey stackID subject action in
  let readReq := {| StackId := stackID; ReadAction := action; ReadSubject := subject |} in
  cache_Get (cache c) key (w_state w) = ((data, Some e), s1) →
  errors_Is e ErrNotFound = true →
  clientV1_Read c readReq s1 = ((resp, Some rerr), s2) →
  retrievePermissions c stackID subject action w
  = ((None, Some ErrReadPermission),
     {| w_state := s2; w_log := w_log w ++ [EvCacheGet key; EvRead readReq] |}).
Proof.
  intros key readReq Hget Hnf Hread.
  unfold retrievePermissions, getCachedController, cacheGet, clientRead. run.
  fold key. rewrite Hget. run. rewrite Hnf. run.
  fold readReq. rewrite Hread. by rewrite <- !app_assoc.
Qed.

(** X6. A permission set that was read from the service but could not be
    written to the cache is not used: [Check] returns the error of the
    write, whatever the set would have allowed. *)
Theorem Check_cache_write_failure c req w i data e s1 resp s2 werr s3 :
  let key := controllerCacheKey (StackID req) (Subject i) (Action req) in
  let readReq := {| StackId := StackID req; ReadAction := Action req;
                    ReadSubject := Subject i |} in
  let res := newController resp in
  let encoded := gobEncode (from_option rangeMap [] (Scopes res))
                           (from_option rangeMap [] (Wildcard res)) res in
  Validate req (accessTokenAuthEnabled c) = None →
  validateNamespace c (Caller req) (StackID req) = true →
  GetIdentity (Caller req) = Some i → IdentityIsNil i = false →
  (accessTokenAuthEnabled c = true →
   ∃ a, GetAccess (Caller req) = Some a ∧ In (Action req) (DelegatedPermissions a)) →
  cache_Get (cache c) key (w_state w) = ((data, Some e), s1) →
  errors_Is e ErrNotFound = true →
  clientV1_Read c readReq s1 = ((resp, None), s2) →
  cache_Set (cache c) key encoded DefaultExpiration s2 = (Some werr, s3) →
  Check c req w
  = ((false, Some werr),
     {| w_state := s3;
        w_log := w_log w ++ [EvCacheGet key; EvRead readReq;
                             EvCacheSet key encoded DefaultExpiration] |}).
Proof.
  intros key readReq res encoded Hv Hns Hid Hnil Hdel Hget Hnf Hread Hset.
  apply checkDelegation_passes in Hdel; [|done].
  unfold Check. rewrite Hv, Hns, Hid, Hnil, Hdel. simpl.
  unfold retrievePermissions, getCachedController, cacheGet, clientRead,
    cacheController, cacheSet. run.
  fold key. rewrite Hget. run. rewrite Hnf. run.
  fold readReq. rewrite Hread. run.
  fold res. fold encoded. rewrite Hset. by rewrite <- !app_assoc.
Qed.

(** What the decoder gives back on the bytes of a permission set; the
    steps are those of the codec round trip. *)
Lemma decode_encode_controller (ctrl : controller) (scopes wildcard : list (string * bool)) :
  ranges_over scopes (Scopes ctrl) → ranges_over wildcard (Wildcard ctrl) →
  go_sized (Scopes ctrl) → go_sized (Wildcard ctrl) →
  gobDecode (gobEncode scopes wildcard ctrl) = Some ctrl.
Proof.
  destruct ctrl as [found [gs|] [gw|]]; intros Hs Hw Hss Hsw;
    unfold gobEncode; destruct found; cbn [Found Scopes Wildcard encodeFields encodeMapField];
    rewrite <- (app_nil_r (gob.encodeUint 0)); rewrite <- ?app_assoc; cbn [app].
  all: repeat match goal with
       | |- context [Z.to_N ?e] =>
           let v := eval vm_compute in (Z.to_N e) in
           replace (Z.to_N e) with v by reflexivity
       end.
  all: rewrite gobDecode_fields.
  all: repeat (rewrite decodeFields_turn by lia; cbv beta zeta; closed_guards;
               rewrite ?gob.decode_encode_bool;
               rewrite ?(decode_map_field _ gs) by done;
               rewrite ?(decode_map_field _ gw) by done;
               cbn [mbind option_bind Found Scopes Wildcard]).
  all: done.
Qed.

(** X7. A cache entry that holds the encoding of a permission set is a hit: the
    resolution step returns that set after the one cache read, and the
    authorization service is not asked. *)
Theorem retrievePermissions_cache_hit c stackID subject action w ctrl scopes wildcard s1 :
  let key := controllerCacheKey stackID subject action in
  ranges_over scopes (Scopes ctrl) → ranges_over wildcard (Wildcard ctrl) →
  go_sized (Scopes ctrl) → go_sized (Wildcard ctrl) →
  cache_Get (cache c) key (w_state w) = ((gobEncode scopes wildcard ctrl, None), s1) →
  retrievePermissions c stackID subject action w
  = ((Some ctrl, None), {| w_state := s1; w_log := w_log w ++ [EvCacheGet key] |}).
Proof.
  intros key Hs Hw Hss Hsw Hget.
  unfold retrievePermissions, getCachedController, cacheGet. run.
  fold key. rewrite Hget. run.
  by rewrite (decode_encode_controller _ _ _ Hs Hw Hss Hsw).
Qed.

(** *** The permission set built from a read response *)

Lemma index_assign (m : gmap string bool) (k k' : string) :
  index (assign (Some m) k') k = true ↔ k = k' ∨ index (Some m) k = true.
Proof.
  simpl. destruct (decide (k = k')) as [->|Hne].
  - rewrite lookup_insert_eq. simpl. tauto.
  - rewrite lookup_insert_ne by done. split; [auto|]. by intros [?|?].
Qed.

Lemma collect_index data gs gw :
  let r := collect data {| Found := true; Scopes := Some gs; Wildcard := Some gw |} in
  (∀ k, index (Wildcard r) k = true ↔
        index (Some gw) k = true
        ∨ ∃ o, In o data ∧ (splitScope o).1.1 = k ∧ (splitScope o).2 = "*")
  ∧ (∀ o, index (Scopes r) o = true ↔
          index (Some gs) o = true ∨ In o data ∧ (splitScope o).2 ≠ "*")
  ∧ is_Some (Scopes r) ∧ is_Some (Wildcard r).
Proof.
  cbv zeta. revert gs gw. induction data as [|o rest IH]; intros gs gw.
  - simpl. repeat split; eauto; try tauto. intros [?|(? & [] & _)]; done.
  - cbn [collect Found Scopes Wildcard assign].
    destruct (splitScope o) as [[kind attr] id] eqn:Hsplit.
    destruct (String.eqb_spec id "*") as [->|Hid].
    + destruct (IH gs (<[kind := true]> gw)) as (Hw & Hs & Hss & Hsw).
      repeat split; try done.
      * rewrite Hw. pose proof (index_assign gw k kind) as Ha. simpl in Ha.
        rewrite Ha. intros [[->|?]|(o' & Hin & Hk & Hstar)]; [| auto | ].
        -- right. exists o. simpl. rewrite Hsplit. auto.
        -- right. exists o'. simpl. auto.
      * rewrite Hw. pose proof (index_assign gw k kind) as Ha. simpl in Ha.
        rewrite Ha. intros [?|(o' & [<-|Hin] & Hk & Hstar)]; [auto| |eauto].
        rewrite Hsplit in Hk. simpl in Hk. auto.
      * rewrite Hs. intros [?|[Hin Hne]]; simpl; auto.
      * rewrite Hs. intros [?|[[<-|Hin] Hne]]; [auto| |auto].
        rewrite Hsplit in Hne. done.
    + destruct (IH (<[o := true]> gs) gw) as (Hw & Hs & Hss & Hsw).
      repeat split; try done.
      * rewrite Hw. intros [?|(o' & Hin & Hk & Hstar)]; [auto|].
        right. exists o'. simpl. auto.
      * rewrite Hw. intros [?|(o' & [<-|Hin] & Hk & Hstar)]; [auto| |eauto].
        rewrite Hsplit in Hstar. done.
      * rewrite Hs. pose proof (index_assign gs o0 o) as Ha. simpl in Ha.
        rewrite Ha. intros [[->|?]|[Hin Hne]]; simpl; auto.
        right. rewrite Hsplit. auto.
      * rewrite Hs. pose proof (index_assign gs o0 o) as Ha. simpl in Ha.
        rewrite Ha. intros [?|[[<-|Hin] Hne]]; auto.
Qed.

(** X9. The set built from a response that found grants: the wildcard set
    holds the kinds of the objects whose identifier is ["*"], the
    exact-scope set holds the other objects as they are, and both maps are
    made. A nil response or one that found nothing gives [Found] false and
    nil maps. *)
Theorem newController_sets (resp : option ReadResponse) :
  let r := newController resp in
  match resp with
  | Some found =>
      if RespFound found then
        Found r = true ∧ is_Some (Scopes r) ∧ is_Some (Wildcard r)
        ∧ (∀ k, index (Wildcard r) k = true ↔
                ∃ o, In o (RespData found)
                     ∧ (splitScope o).1.1 = k ∧ (splitScope o).2 = "*")
        ∧ (∀ o, index (Scopes r) o = true ↔
                In o (RespData found) ∧ (splitScope o).2 ≠ "*")
      else r = {| Found := false; Scopes := None; Wildcard := None |}
  | None => r = {| Found := false; Scopes := None; Wildcard := None |}
  end.
Proof.
  cbv zeta. unfold newController. destruct resp as [found|]; [|done].
  destruct (RespFound found); [|done]. cbn [negb].
  destruct (collect_index (RespData found) ∅ ∅) as (Hw & Hs & Hss & Hsw).
  rewrite collect_Found. split; [done|]. split; [done|]. split; [done|]. split.
  - intros k. rewrite Hw. split; [|auto]. intros [H|?]; [by simpl in H|done].
  - intros o. rewrite Hs. split; [|auto]. intros [H|?]; [by simpl in H|done].
Qed.

(** *** The order and number of the resources *)

Lemma any_resource_Permutation (r : controller) (l1 l2 : list Resource) :
  l1 ≡ₚ l2 → any_resource r l1 = any_resource r l2.
Proof.
  intros Hperm. apply eq_true_iff_eq. rewrite !any_resource_exists.
  split; intros (x & Hin & Hx); exists x; split; try done.
  - by apply (Permutation_in _ Hperm).
  - by apply (Permutation_in _ (Permutation_sym Hperm)).
Qed.

(** X10. The order of the resources plays no part in the decision. *)
Theorem controller_Check_Permutation (r : controller) (l1 l2 : list Resource) :
  l1 ≡ₚ l2 → controller_Check r l1 = controller_Check r l2.
Proof.
  intros Hperm. unfold controller_Check.
  rewrite (Permutation_length Hperm), (any_resource_Permutation r l1 l2 Hperm). done.
Qed.

(** X11. On a list that is not empty, more resources never turn an allow into a
    deny. The empty list is the action check, which a found set always
    passes, so adding a first resource can deny. *)
Theorem controller_Check_more_resources (r : controller) (l more : list Resource) :
  l ≠ [] → controller_Check r l = true → controller_Check r (l ++ more) = true.
Proof.
  intros Hne Hl.
  destruct (Found r) eqn:Hfound; [|by unfold controller_Check in Hl; rewrite Hfound in Hl].
  apply controller_Check_matches in Hl; [|done..].
  apply controller_Check_matches; [done|by destruct l|].
  destruct Hl as [?|(x & Hin & Hx)]; [auto|].
  right. exists x. split; [apply in_or_app; auto|done].
Qed.

End Client.

(** *** Construction of the client *)

Section Construction.
Context {S Conn DialOption Tracer : Type}.

(** What the constructor gets from other packages: the default local
    cache, the no-op tracer, the dial option that carries the tracer, the
    gRPC dial, the service client over a connection and the default
    namespace formatter. *)
Variable NewLocalCache : Cache S.
Variable noopTracer : Tracer.
Variable withStatsHandler : Tracer → DialOption.
Variable grpcNewClient : string → list DialOption → Conn + error.
Variable NewAuthzServiceClient :
  Conn → ReadRequest → S → (option ReadResponse * option error) * S.
Variable CloudNamespaceFormatter : Z → string.

(** [MultiTenantClientConfig] *)
Record MultiTenantClientConfig := {
  RemoteAddress : string;
  cfgAccessTokenAuthEnabled : bool;
}.

(** [LegacyClientImpl] while it is built: every field an option sets, [nil]
    being [None]. [authCfg] is the caller's configuration, which the client
    shares. *)
Record clientFields := {
  authCfg : MultiTenantClientConfig;
  cacheField : option (Cache S);
  grpcConn : option Conn;
  grpcOptions : list DialOption;
  namespaceFmtField : option (Z → string);
  tracer : option Tracer;
}.

(** The functions that return a [LegacyClientOption], each with its
    argument. *)
Inductive LegacyClientOption : Type :=
  | WithCacheLCOption (cache : option (Cache S))
  | WithGrpcDialOptionsLCOption (opts : list DialOption)
  | WithGrpcConnectionLCOption (conn : option Conn)
  | WithTracerLCOption (tracer : option Tracer)
  | WithNamespaceFormatterLCOption (fmt : option (Z → string))
  | WithDisableAccessTokenLCOption.

(** [opt(client)] *)
Definition applyOption (client : clientFields) (opt : LegacyClientOption) : clientFields :=
  match opt with
  | WithCacheLCOption cache =>
      {| authCfg := authCfg client; cacheField := cache; grpcConn := grpcConn client;
         grpcOptions := grpcOptions client;
         namespaceFmtField := namespaceFmtField client; tracer := tracer client |}
  | WithGrpcDialOptionsLCOption opts =>
      {| authCfg := authCfg client; cacheField := cacheField client;
         grpcConn := grpcConn client; grpcOptions := opts;
         namespaceFmtField := namespaceFmtField client; tracer := tracer client |}
  | WithGrpcConnectionLCOption conn =>
      {| authCfg := authCfg client; cacheField := cacheField client; grpcConn := conn;
         grpcOptions := grpcOptions client;
         namespaceFmtField := namespaceFmtField client; tracer := tracer client |}
  | WithTracerLCOption t =>
      {| authCfg := authCfg client; cacheField := cacheField client;
         grpcConn := grpcConn client; grpcOptions := grpcOptions client;
         namespaceFmtField := namespaceFmtField client; tracer := t |}
  | WithNamespaceFormatterLCOption fmt =>
      {| authCfg := authCfg client; cacheField := cacheField client;
         grpcConn := grpcConn client; grpcOptions := grpcOptions client;
         namespaceFmtField := fmt; tracer := tracer client |}
  | WithDisableAccessTokenLCOption =>
      {| authCfg := {| RemoteAddress := RemoteAddress (authCfg client);
                       cfgAccessTokenAuthEnabled := false |};
         cacheField := cacheField client; grpcConn := grpcConn client;
         grpcOptions := grpcOptions client;
         namespaceFmtField := namespaceFmtField client; tracer := tracer client |}
  end.

(** The connection the client ends with: the one it was given, or one
    dialled to the remote address with the dial options followed by the
    tracing handler. The error for a missing address wraps
    [ErrMissingConfig]. *)
Definition connect (client : clientFields) : Conn + error :=
  match grpcConn client with
  | Some conn => inl conn
  | None =>
      if String.eqb (RemoteAddress (authCfg client)) ""
      then inr (ErrWrap ErrMissingConfig "missing remote address")
      else grpcNewClient (RemoteAddress (authCfg client))
             (grpcOptions client
                ++ [withStatsHandler (default noopTracer (tracer client))])
  end.

(** [NewLegacyClient(cfg, opts...)], a client and an error. *)
Definition NewLegacyClient (cfg : option MultiTenantClientConfig)
    (opts : list LegacyClientOption) : option LegacyClientImpl * option error :=
  match cfg with
  | None => (None, Some ErrMissingConfig)
  | Some cfg =>
      let cfg := {| RemoteAddress := RemoteAddress cfg;
                    cfgAccessTokenAuthEnabled := true |} in
      let client :=
        foldl applyOption
          {| authCfg := cfg; cacheField := None; grpcConn := None; grpcOptions := [];
             namespaceFmtField := None; tracer := None |} opts in
      match connect client with
      | inr err => (None, Some err)
      | inl conn =>
          (Some {| accessTokenAuthEnabled := cfgAccessTokenAuthEnabled (authCfg client);
                   clientV1_Read := NewAuthzServiceClient conn;
                   cache := default NewLocalCache (cacheField client);
                   namespaceFmt :=
                     default CloudNamespaceFormatter (namespaceFmtField client) |},
           None)
      end
  end.

(** What a run of options leaves in each field. *)
Lemma applyOptions_RemoteAddress opts client :
  RemoteAddress (authCfg (foldl applyOption client opts)) = RemoteAddress (authCfg client).
Proof.
  revert client. induction opts as [|o opts IH]; intros client; [done|].
  simpl. rewrite IH. by destruct o.
Qed.

Lemma applyOptions_enabled opts client :
  cfgAccessTokenAuthEnabled (authCfg (foldl applyOption client opts)) = true ↔
  cfgAccessTokenAuthEnabled (authCfg client) = true
  ∧ ¬ In WithDisableAccessTokenLCOption opts.
Proof.
  revert client. induction opts as [|o opts IH]; intros client; simpl; [tauto|].
  rewrite IH. destruct o; simpl; try (split; [intros [? ?]; split; [done|intros [?|?]; done]
                                            |intros [? Hn]; split; [done|tauto]]).
  split; [by intros [? ?]|]. intros [_ Hn]. destruct Hn. auto.
Qed.

Lemma applyOptions_no_connection opts client :
  (∀ conn, ¬ In (WithGrpcConnectionLCOption conn) opts) →
  grpcConn (foldl applyOption client opts) = grpcConn client.
Proof.
  revert client. induction opts as [|o opts IH]; intros client Hno; [done|].
  simpl. rewrite IH by (intros conn Hin; apply (Hno conn); by right).
  destruct o; try done. destruct (Hno conn). by left.
Qed.

Lemma applyOptions_no_cache opts client :
  (∀ ch, ¬ In (WithCacheLCOption ch) opts) →
  cacheField (foldl applyOption client opts) = cacheField client.
Proof.
  revert client. induction opts as [|o opts IH]; intros client Hno; [done|].
  simpl. rewrite IH by (intros ch Hin; apply (Hno ch); by right).
  destruct o; try done. destruct (Hno cache0). by left.
Qed.

(** X13. Without a configuration there is no client and the error is
    [ErrMissingConfig], whatever the options. With a configuration, either a
    client comes back without an error or no client comes back with one; the
    client has access-token checking on exactly when no option disabled it;
    and the flag the caller set in the configuration plays no part, since
    the constructor overwrites it before the options run. *)
Theorem NewLegacyClient_access_token_flag (cfg : MultiTenantClientConfig)
    (opts : list LegacyClientOption) :
  NewLegacyClient None opts = (None, Some ErrMissingConfig)
  ∧ match NewLegacyClient (Some cfg) opts with
    | (Some client, err) =>
        err = None
        ∧ (accessTokenAuthEnabled client = true
           ↔ ¬ In WithDisableAccessTokenLCOption opts)
    | (None, err) => ∃ e, err = Some e
    end
  ∧ ∀ flag,
      NewLegacyClient
        (Some {| RemoteAddress := RemoteAddress cfg;
                 cfgAccessTokenAuthEnabled := flag |}) opts
      = NewLegacyClient (Some cfg) opts.
Proof.
  split; [done|]. split; [|done].
  unfold NewLegacyClient. cbv zeta. destruct (connect _) as [conn|err]; [|by eexists].
  split; [done|].
  cbn [accessTokenAuthEnabled]. rewrite applyOptions_enabled. simpl. tauto.
Qed.

(** X14. With a connection handed over by an option, and not replaced by a later
    one, the client is built over that connection: the remote address is not
    needed and nothing is dialled. *)
Theorem NewLegacyClient_with_connection cfg before conn after :
  (∀ conn', ¬ In (WithGrpcConnectionLCOption conn') after) →
  ∃ client,
    NewLegacyClient (Some cfg) (before ++ WithGrpcConnectionLCOption (Some conn) :: after)
    = (Some client, None)
    ∧ clientV1_Read client = NewAuthzServiceClient conn.
Proof.
  intros Hno. unfold NewLegacyClient, connect. cbv zeta.
  rewrite foldl_app. cbn [foldl].
  rewrite applyOptions_no_connection by done. cbn [applyOption grpcConn].
  eexists. split; reflexivity.
Qed.

Lemma applyOptions_no_dial_options opts client :
  (∀ o, ¬ In (WithGrpcDialOptionsLCOption o) opts) →
  grpcOptions (foldl applyOption client opts) = grpcOptions client.
Proof.
  revert client. induction opts as [|o opts IH]; intros client Hno; [done|].
  simpl. rewrite IH by (intros x Hin; apply (Hno x); by right).
  destruct o; try done. destruct (Hno opts0). by left.
Qed.

Lemma applyOptions_no_tracer opts client :
  (∀ t, ¬ In (WithTracerLCOption t) opts) →
  tracer (foldl applyOption client opts) = tracer client.
Proof.
  revert client. induction opts as [|o opts IH]; intros client Hno; [done|].
  simpl. rewrite IH by (intros x Hin; apply (Hno x); by right).
  destruct o; try done. destruct (Hno tracer0). by left.
Qed.

(** X15. Without a connection option the client needs the remote address: an
    empty address is a missing configuration. With an address, and neither
    dial options nor a tracer among the options, the address is dialled
    with the handler of the no-op tracer alone, and the outcome is that of
    the dial, whose error is returned as it is. *)
Theorem NewLegacyClient_without_connection cfg opts :
  (∀ conn, ¬ In (WithGrpcConnectionLCOption conn) opts) →
  (RemoteAddress cfg = "" →
   ∃ err, NewLegacyClient (Some cfg) opts = (None, Some err)
          ∧ errors_Is err ErrMissingConfig = true)
  ∧ (RemoteAddress cfg ≠ "" →
     (∀ o, ¬ In (WithGrpcDialOptionsLCOption o) opts) →
     (∀ t, ¬ In (WithTracerLCOption t) opts) →
     match grpcNewClient (RemoteAddress cfg) [withStatsHandler noopTracer] with
     | inl conn =>
         ∃ client, NewLegacyClient (Some cfg) opts = (Some client, None)
                   ∧ clientV1_Read client = NewAuthzServiceClient conn
     | inr err => NewLegacyClient (Some cfg) opts = (None, Some err)
     end).
Proof.
  intros Hno. unfold NewLegacyClient, connect. cbv zeta.
  rewrite applyOptions_no_connection by done.
  rewrite applyOptions_RemoteAddress. cbn [grpcConn authCfg RemoteAddress].
  split.
  - intros ->. simpl. eauto.
  - intros Hne Hdial Htracer.
    destruct (String.eqb_spec (RemoteAddress cfg) ""); [done|].
    rewrite applyOptions_no_dial_options, applyOptions_no_tracer by done.
    cbn [grpcOptions tracer default app].
    destruct (grpcNewClient _ _); [|reflexivity].
    eexists. split; reflexivity.
Qed.

(** X16. The cache of the client is the one of the last cache option, and the
    default local cache when there is no cache option or the last one hands
    over nil. *)
Theorem NewLegacyClient_cache cfg opts client :
  NewLegacyClient (Some cfg) opts = (Some client, None) →
  ((∀ ch, ¬ In (WithCacheLCOption ch) opts) → cache client = NewLocalCache)
  ∧ (∀ before ch after,
       opts = before ++ WithCacheLCOption ch :: after →
       (∀ ch', ¬ In (WithCacheLCOption ch') after) →
       cache client = default NewLocalCache ch).
Proof.
  unfold NewLegacyClient. cbv zeta. destruct (connect _); [|done].
  intros [= <-]. cbn [cache]. split.
  - intros Hno. by rewrite applyOptions_no_cache.
  - intros before ch after -> Hno. rewrite foldl_app. cbn [foldl].
    by rewrite applyOptions_no_cache.
Qed.

End Construction.

(** *** Concrete collaborators *)

(** Modelled from the spec: [Resource.Scope], whose source is outside this
    development. The canonical scope string is the colon-joined form
    [kind:attribute:identifier], or [kind:identifier] when the attribute is
    absent. *)
Definition Scope (r : Resource) : string :=
  if String.eqb (Attr r) "" then Kind r +:+ ":" +:+ ID r
  else Kind r +:+ ":" +:+ Attr r +:+ ":" +:+ ID r.

(** The part of [s] before its first colon, and the part after it when
    there is a colon. *)
Fixpoint cutColon (s : string) : string * option string :=
  match s with
  | EmptyString => (EmptyString, None)
  | String a rest =>
      if Ascii.eqb a ":"%char then (EmptyString, Some rest)
      else let '(before, after) := cutColon rest in (String a before, after)
  end.

(** Modelled from the spec: [splitScope], whose source is outside this
    development. A granted object is a scope string of the form
    [kind:attribute:identifier] or [kind:identifier]. *)
Definition splitScope (scope : string) : string * string * string :=
  match cutColon scope with
  | (kind, None) => (kind, "", "")
  | (kind, Some rest) =>
      match cutColon rest with
      | (id, None) => (kind, "", id)
      | (attr, Some id) => (kind, attr, id)
      end
  end.

(** Modelled from the spec: [claims.NamespaceMatches], whose source is
    outside this development. The claims match when their namespace is the
    expected namespace. *)
Definition NamespaceMatches (actual expected : string) : bool :=
  String.eqb actual expected.

(** A client over [mapCache] whose authorization service grants every
    subject the team with identifier 1 and all dashboards. *)
Definition exampleClient (accessTokens : bool) : LegacyClientImpl := {|
  accessTokenAuthEnabled := accessTokens;
  clientV1_Read _ m :=
    ((Some {| RespFound := true; RespData := ["teams:id:1"; "dashboards:*"] |}, None), m);
  cache := mapCache;
  namespaceFmt stackID := "stacks-" +:+ pretty stackID;
|}.

Definition exampleCaller (namespace : string) : AuthInfo := {|
  GetAccess := Some {| AccessIsNil := false; AccessSubject := "service";
                       AccessNamespace := namespace; Permissions := [];
                       DelegatedPermissions := ["teams:read"] |};
  GetIdentity := Some {| IdentityIsNil := false; Subject := "user:1";
                         IdentityNamespace := namespace |};
|}.

Definition exampleRequest (namespace : string) (stackID : Z) (action : string)
  : CheckRequest := {|
  Caller := exampleCaller namespace;
  StackID := stackID;
  Action := action;
  ReqResource := Some {| Kind := "teams"; Attr := "id"; ID := "1" |};
  Contextual := [{| Kind := "folders"; Attr := "uid"; ID := "general" |}];
|}.

Definition emptyWorld : World (gmap string bytes) := {| w_state := ∅; w_log := [] |}.

(** The permission set the example service grants, and the world after
    the example request has been resolved against an empty cache. *)
Definition examplePermissions : controller :=
  newController splitScope
    (Some {| RespFound := true; RespData := ["teams:id:1"; "dashboards:*"] |}).

Definition resolvedWorld : World (gmap string bytes) :=
  snd (retrievePermissions splitScope map_to_list (exampleClient true)
         12 "user:1" "teams:read" emptyWorld).

(** A cache that holds bytes that are no gob encoding under the key of the
    example request. *)
Definition corruptWorld : World (gmap string bytes) :=
  {| w_state := {[ "read-12-user:1-teams:read" := [xff] ]}; w_log := [] |}.

(** *** The theorems at concrete requests *)

Lemma Check_evaluates_permission_set_witness :
  ∃ allowed,
    Check NamespaceMatches Scope splitScope map_to_list (exampleClient true)
      (exampleRequest "stacks-12" 12 "teams:read") emptyWorld
    = ((allowed, None), resolvedWorld)
    ∧ (Found examplePermissions = false → allowed = false)
    ∧ (Found examplePermissions = true →
       ReqResource (exampleRequest "stacks-12" 12 "teams:read") = None → allowed = true)
    ∧ (Found examplePermissions = true → ∀ resource,
       ReqResource (exampleRequest "stacks-12" 12 "teams:read") = Some resource →
       allowed = true ↔
       index (Wildcard examplePermissions) "*" = true
       ∨ ∃ x, In x (resource :: Contextual (exampleRequest "stacks-12" 12 "teams:read"))
              ∧ (index (Wildcard examplePermissions) (Kind x) = true
                 ∨ index (Scopes examplePermissions) (Scope x) = true)).
Proof.
  apply (Check_evaluates_permission_set NamespaceMatches Scope splitScope map_to_list
           (exampleClient true) (exampleRequest "stacks-12" 12 "teams:read") emptyWorld
           {| IdentityIsNil := false; Subject := "user:1";
              IdentityNamespace := "stacks-12" |}).
  - vm_compute; reflexivity.
  - vm_compute; reflexivity.
  - reflexivity.
  - reflexivity.
  - intros _. eexists. split; [reflexivity|]. simpl. auto.
  - vm_compute; reflexivity.
Defined.

(** The example request is allowed: the team it names is granted. *)
Example Check_allows_granted_team :
  fst (Check NamespaceMatches Scope splitScope map_to_list (exampleClient true)
         (exampleRequest "stacks-12" 12 "teams:read") emptyWorld) = (true, None).
Proof. vm_compute; reflexivity. Qed.

(** A second identical request is answered from the cache: one cache read
    that decodes to the set written by the first, and no remote read. *)
Example Check_second_call_served_from_cache :
  Check NamespaceMatches Scope splitScope map_to_list (exampleClient true)
    (exampleRequest "stacks-12" 12 "teams:read")
    {| w_state := w_state resolvedWorld; w_log := [] |}
  = ((true, None),
     {| w_state := w_state resolvedWorld;
        w_log := [EvCacheGet "read-12-user:1-teams:read"] |}).
Proof. vm_compute; reflexivity. Qed.

Lemma Check_namespace_mismatch_denies_witness :
  Check NamespaceMatches Scope splitScope map_to_list (exampleClient true)
    (exampleRequest "stacks-99" 12 "teams:read") emptyWorld
  = ((false, None), emptyWorld).
Proof.
  apply (Check_namespace_mismatch_denies NamespaceMatches Scope splitScope map_to_list).
  - vm_compute; reflexivity.
  - left. split; [reflexivity|]. eexists. split; [reflexivity|]. vm_compute; reflexivity.
Defined.

(** A request without a stack identifier is refused before the cache and
    the service are touched, whatever else it lacks. *)
Lemma Check_invalid_request_fails_fast_witness :
  Check NamespaceMatches Scope splitScope map_to_list (exampleClient true)
    (exampleRequest "stacks-12" 0 "") emptyWorld
  = ((false, Some ErrMissingStackID), emptyWorld).
Proof.
  apply (Check_invalid_request_fails_fast NamespaceMatches Scope splitScope map_to_list).
  simpl. lia.
Defined.

Example Check_missing_action :
  Check NamespaceMatches Scope splitScope map_to_list (exampleClient true)
    (exampleRequest "stacks-12" 12 "") emptyWorld
  = ((false, Some ErrMissingAction), emptyWorld).
Proof. vm_compute; reflexivity. Qed.

Example Check_missing_caller :
  Check NamespaceMatches Scope splitScope map_to_list (exampleClient true)
    {| Caller := {| GetAccess := None; GetIdentity := None |}; StackID := 12;
       Action := "teams:read"; ReqResource := None; Contextual := [] |} emptyWorld
  = ((false, Some ErrMissingCaller), emptyWorld).
Proof. vm_compute; reflexivity. Qed.

Example Check_missing_subject :
  Check NamespaceMatches Scope splitScope map_to_list (exampleClient false)
    {| Caller := {| GetAccess := None;
                    GetIdentity := Some {| IdentityIsNil := false; Subject := "";
                                           IdentityNamespace := "stacks-12" |} |};
       StackID := 12; Action := "teams:read"; ReqResource := None; Contextual := [] |}
    emptyWorld
  = ((false, Some ErrMissingSubject), emptyWorld).
Proof. vm_compute; reflexivity. Qed.

(** A response that grants everything: one object of kind ["*"] with the
    identifier ["*"]. *)
Definition grantAll : option ReadResponse :=
  Some {| RespFound := true; RespData := ["*:*"; "teams:id:1"] |}.

Lemma controller_Check_universal_wildcard_witness :
  index (Wildcard (newController splitScope grantAll)) "*" = true
  ∧ controller_Check Scope (newController splitScope grantAll)
      [{| Kind := "dashboards"; Attr := "uid"; ID := "abc" |};
       {| Kind := "folders"; Attr := "uid"; ID := "f1" |}]
    = true.
Proof.
  split; [vm_compute; reflexivity|].
  apply controller_Check_universal_wildcard; vm_compute; reflexivity.
Defined.

(** The scenario of the kind wildcard: with ["teams"] in the wildcard set
    and no exact scope, every team is allowed and no other kind is. *)
Lemma controller_Check_kind_wildcard (id attr : string) (other : Resource) :
  let teams := {| Found := true; Scopes := Some ∅; Wildcard := Some {[ "teams" := true ]} |} in
  controller_Check Scope teams [{| Kind := "teams"; Attr := attr; ID := id |}] = true
  ∧ (Kind other ≠ "teams" → controller_Check Scope teams [other] = false).
Proof.
  cbv zeta. split; [done|]. intros Hkind.
  unfold controller_Check. simpl.
  rewrite map_size_singleton. simpl. unfold index. simpl.
  rewrite lookup_singleton_ne by done. rewrite lookup_singleton_ne; [done|].
  intros H. by vm_compute in H.
Qed.

Lemma retrievePermissions_surfaces_cache_fault_witness :
  retrievePermissions splitScope map_to_list (exampleClient true)
    12 "user:1" "teams:read" corruptWorld
  = ((None, Some ErrGobDecode),
     {| w_state := w_state corruptWorld;
        w_log := [EvCacheGet "read-12-user:1-teams:read"] |})
  ∧ Check NamespaceMatches Scope splitScope map_to_list (exampleClient true)
      (exampleRequest "stacks-12" 12 "teams:read") corruptWorld
    = ((false, Some ErrGobDecode),
       {| w_state := w_state corruptWorld;
          w_log := [EvCacheGet "read-12-user:1-teams:read"] |}).
Proof.
  apply (retrievePermissions_surfaces_cache_fault NamespaceMatches Scope splitScope
           map_to_list (exampleClient true) (exampleRequest "stacks-12" 12 "teams:read")
           corruptWorld
           {| IdentityIsNil := false; Subject := "user:1";
              IdentityNamespace := "stacks-12" |}
           [xff] None (w_state corruptWorld) ErrGobDecode).
  - vm_compute; reflexivity.
  - vm_compute; reflexivity.
  - reflexivity.
  - reflexivity.
  - intros _. eexists. split; [reflexivity|]. simpl. auto.
  - vm_compute; reflexivity.
  - left. split; [reflexivity|]. split; [vm_compute; reflexivity|reflexivity].
Defined.

Lemma gob_round_trip_witness :
  gobDecode
    (gobEncode (map_to_list {[ "teams:id:1" := true; "teams:id:2" := true ]}) []
       {| Found := true;
          Scopes := Some {[ "teams:id:1" := true; "teams:id:2" := true ]};
          Wildcard := Some ∅ |})
  = Some {| Found := true;
            Scopes := Some {[ "teams:id:1" := true; "teams:id:2" := true ]};
            Wildcard := Some ∅ |}.
Proof.
  apply gob_round_trip.
  - simpl. reflexivity.
  - simpl. by rewrite map_to_list_empty.
  - simpl. split; [by vm_compute|].
    apply (bool_decide_unpack _). by vm_compute.
  - simpl. split; [by vm_compute|]. apply map_Forall_empty.
Defined.

(** The bytes of a found permission set without maps, and of the one the
    example service grants. *)
Example gobEncode_found_only :
  gobEncode [] [] {| Found := true; Scopes := None; Wildcard := None |}
  = [x01; x01; x00].
Proof. reflexivity. Qed.

Example gobDecode_rejects_truncated : gobDecode [x02; x05] = None.
Proof. reflexivity. Qed.

(** C10. The cache key is not injective: a dash in the subject or in the
    action lets two different queries share one key. *)
Theorem controllerCacheKey_collision :
  ∃ stackID subject1 action1 subject2 action2,
    (subject1, action1) ≠ (subject2, action2)
    ∧ controllerCacheKey stackID subject1 action1
      = controllerCacheKey stackID subject2 action2.
Proof.
  exists 1, "user-1", "read", "user", "1-read". split; [discriminate|reflexivity].
Qed.

Lemma string_app_assoc (a b c : string) : (a +:+ b) +:+ c = a +:+ b +:+ c.
Proof.
  induction a as [|x a IH]; [done|].
  change (String x ((a +:+ b) +:+ c) = String x (a +:+ b +:+ c)). by rewrite IH.
Qed.

(** Every dash that can be read as the separator gives such a pair. *)
Lemma controllerCacheKey_shift stackID (subject middle action : string) :
  controllerCacheKey stackID (subject +:+ "-" +:+ middle) action
  = controllerCacheKey stackID subject (middle +:+ "-" +:+ action).
Proof.
  unfold controllerCacheKey. by rewrite !string_app_assoc.
Qed.

(** The two queries of the collision read the permission set the other one
    cached: after the first is resolved, the second is served from the cache
    without a remote read. *)
Example controllerCacheKey_collision_shares_entry :
  let c := exampleClient true in
  let w1 := snd (retrievePermissions splitScope map_to_list c 1 "user-1" "read" emptyWorld) in
  w_log (snd (retrievePermissions splitScope map_to_list c 1 "user" "1-read"
                {| w_state := w_state w1; w_log := [] |}))
  = [EvCacheGet "read-1-user-1-read"].
Proof. vm_compute; reflexivity. Qed.

(** *** More concrete collaborators and the further theorems at them *)

#[global] Instance go_sized_dec m : Decision (go_sized m).
Proof. destruct m; simpl; apply _. Defined.

(** A request of the service itself, without an end user. *)
Definition serviceRequest (action : string) : CheckRequest := {|
  Caller := {| GetAccess := Some {| AccessIsNil := false; AccessSubject := "service";
                                    AccessNamespace := "stacks-12";
                                    Permissions := ["teams:read"];
                                    DelegatedPermissions := [] |};
               GetIdentity := None |};
  StackID := 12;
  Action := action;
  ReqResource := None;
  Contextual := [];
|}.

(** A client whose authorization service cannot be reached, and one whose
    cache accepts no write. *)
Definition unreachableClient : LegacyClientImpl := {|
  accessTokenAuthEnabled := true;
  clientV1_Read _ m := ((None, Some (ErrLib "unavailable")), m);
  cache := mapCache;
  namespaceFmt stackID := "stacks-" +:+ pretty stackID;
|}.

Definition fullCache : Cache (gmap string bytes) := {|
  cache_Get := cache_Get mapCache;
  cache_Set _ _ _ m := (Some (ErrLib "cache full"), m);
  cache_Delete := cache_Delete mapCache;
|}.

Definition fullCacheClient : LegacyClientImpl := {|
  accessTokenAuthEnabled := true;
  clientV1_Read := clientV1_Read (exampleClient true);
  cache := fullCache;
  namespaceFmt stackID := "stacks-" +:+ pretty stackID;
|}.

Definition exampleResponse : option ReadResponse :=
  Some {| RespFound := true; RespData := ["teams:id:1"; "dashboards:*"] |}.

Definition exampleKey : string := "read-12-user:1-teams:read".

Definition exampleReadRequest : ReadRequest :=
  {| StackId := 12; ReadAction := "teams:read"; ReadSubject := "user:1" |}.

Definition exampleEncoded : bytes :=
  gobEncode (from_option map_to_list [] (Scopes examplePermissions))
            (from_option map_to_list [] (Wildcard examplePermissions)) examplePermissions.

Definition exampleIdentity : IdentityClaims :=
  {| IdentityIsNil := false; Subject := "user:1"; IdentityNamespace := "stacks-12" |}.

Lemma Check_without_identity_witness :
  ∃ allowed,
    Check NamespaceMatches Scope splitScope map_to_list (exampleClient true)
      (serviceRequest "teams:read") emptyWorld = ((allowed, None), emptyWorld)
    ∧ (accessTokenAuthEnabled (exampleClient true) = false → allowed = true)
    ∧ (accessTokenAuthEnabled (exampleClient true) = true →
       ∃ a, GetAccess (Caller (serviceRequest "teams:read")) = Some a
            ∧ AccessIsNil a = false
            ∧ (allowed = true ↔ In (Action (serviceRequest "teams:read")) (Permissions a))).
Proof.
  apply (Check_without_identity NamespaceMatches Scope splitScope map_to_list).
  - vm_compute; reflexivity.
  - vm_compute; reflexivity.
  - intros i H. discriminate H.
Defined.

Lemma Check_delegation_denied_witness :
  Check NamespaceMatches Scope splitScope map_to_list (exampleClient true)
    (exampleRequest "stacks-12" 12 "teams:write") emptyWorld
  = ((false, None), emptyWorld).
Proof.
  apply (Check_delegation_denied NamespaceMatches Scope splitScope map_to_list
           (exampleClient true) (exampleRequest "stacks-12" 12 "teams:write") emptyWorld
           exampleIdentity
           {| AccessIsNil := false; AccessSubject := "service";
              AccessNamespace := "stacks-12"; Permissions := [];
              DelegatedPermissions := ["teams:read"] |}).
  - vm_compute; reflexivity.
  - vm_compute; reflexivity.
  - reflexivity.
  - reflexivity.
  - reflexivity.
  - reflexivity.
  - simpl. intros [H|[]]. discriminate H.
Defined.

Lemma retrievePermissions_miss_witness :
  retrievePermissions splitScope map_to_list (exampleClient true)
    12 "user:1" "teams:read" emptyWorld
  = ((Some examplePermissions, None),
     {| w_state := {[ exampleKey := exampleEncoded ]};
        w_log := [EvCacheGet exampleKey; EvRead exampleReadRequest;
                  EvCacheSet exampleKey exampleEncoded DefaultExpiration] |}).
Proof.
  apply (retrievePermissions_miss splitScope map_to_list (exampleClient true)
           12 "user:1" "teams:read" emptyWorld [] ErrNotFound ∅ exampleResponse ∅
           None {[ exampleKey := exampleEncoded ]}).
  - reflexivity.
  - reflexivity.
  - reflexivity.
  - reflexivity.
Defined.

Lemma retrievePermissions_read_failure_witness :
  retrievePermissions splitScope map_to_list unreachableClient
    12 "user:1" "teams:read" emptyWorld
  = ((None, Some ErrReadPermission),
     {| w_state := ∅; w_log := [EvCacheGet exampleKey; EvRead exampleReadRequest] |}).
Proof.
  apply (retrievePermissions_read_failure splitScope map_to_list unreachableClient
           12 "user:1" "teams:read" emptyWorld [] ErrNotFound ∅ None
           (ErrLib "unavailable") ∅).
  - reflexivity.
  - reflexivity.
  - reflexivity.
Defined.

Lemma Check_cache_write_failure_witness :
  Check NamespaceMatches Scope splitScope map_to_list fullCacheClient
    (exampleRequest "stacks-12" 12 "teams:read") emptyWorld
  = ((false, Some (ErrLib "cache full")),
     {| w_state := ∅;
        w_log := [EvCacheGet exampleKey; EvRead exampleReadRequest;
                  EvCacheSet exampleKey exampleEncoded DefaultExpiration] |}).
Proof.
  apply (Check_cache_write_failure NamespaceMatches Scope splitScope map_to_list
           fullCacheClient (exampleRequest "stacks-12" 12 "teams:read") emptyWorld
           exampleIdentity [] ErrNotFound ∅ exampleResponse ∅ (ErrLib "cache full") ∅).
  - vm_compute; reflexivity.
  - vm_compute; reflexivity.
  - reflexivity.
  - reflexivity.
  - intros _. eexists. split; [reflexivity|]. simpl. auto.
  - reflexivity.
  - reflexivity.
  - reflexivity.
  - reflexivity.
Defined.

Lemma retrievePermissions_cache_hit_witness :
  retrievePermissions splitScope map_to_list (exampleClient true)
    12 "user:1" "teams:read"
    {| w_state := {[ exampleKey := exampleEncoded ]}; w_log := [] |}
  = ((Some examplePermissions, None),
     {| w_state := {[ exampleKey := exampleEncoded ]};
        w_log := [EvCacheGet exampleKey] |}).
Proof.
  apply (retrievePermissions_cache_hit splitScope map_to_list (exampleClient true)
           12 "user:1" "teams:read"
           {| w_state := {[ exampleKey := exampleEncoded ]}; w_log := [] |}
           examplePermissions
           (from_option map_to_list [] (Scopes examplePermissions))
           (from_option map_to_list [] (Wildcard examplePermissions))
           {[ exampleKey := exampleEncoded ]}).
  - vm_compute. reflexivity.
  - vm_compute. reflexivity.
  - apply (bool_decide_unpack _). vm_compute. reflexivity.
  - apply (bool_decide_unpack _). vm_compute. reflexivity.
  - vm_compute. reflexivity.
Defined.

Lemma controller_Check_Permutation_witness :
  controller_Check Scope examplePermissions
    [{| Kind := "folders"; Attr := "uid"; ID := "general" |};
     {| Kind := "teams"; Attr := "id"; ID := "1" |}]
  = controller_Check Scope examplePermissions
      [{| Kind := "teams"; Attr := "id"; ID := "1" |};
       {| Kind := "folders"; Attr := "uid"; ID := "general" |}].
Proof. apply controller_Check_Permutation. apply perm_swap. Defined.

Lemma controller_Check_more_resources_witness :
  controller_Check Scope examplePermissions
    ([{| Kind := "teams"; Attr := "id"; ID := "1" |}]
       ++ [{| Kind := "folders"; Attr := "uid"; ID := "general" |}])
  = true.
Proof.
  apply controller_Check_more_resources.
  - discriminate.
  - vm_compute. reflexivity.
Defined.

(** The action check passes on the empty list, and one resource that is
    not granted turns it into a deny. *)
Example controller_Check_first_resource_can_deny :
  controller_Check Scope examplePermissions [] = true
  ∧ controller_Check Scope examplePermissions
      [{| Kind := "folders"; Attr := "uid"; ID := "general" |}] = false.
Proof. split; vm_compute; reflexivity. Qed.

(** *** A resolved set is served from the cache the next time *)

(** X8. Over the map cache, with a service that leaves the cache alone: the
    first resolution of a triple that is not cached reads the service and
    caches the set, and the next resolution of the same triple returns the
    same set from one cache read, without asking the service. *)
Theorem retrievePermissions_then_cached
    (split : string → string * string * string)
    (range : gmap string bool → list (string * bool))
    (c : LegacyClientImpl) stackID subject action (m : gmap string bytes) log resp :
  let key := controllerCacheKey stackID subject action in
  let readReq := {| StackId := stackID; ReadAction := action; ReadSubject := subject |} in
  let res := newController split resp in
  cache c = mapCache →
  m !! key = None →
  clientV1_Read c readReq m = ((resp, None), m) →
  (∀ g, range g ≡ₚ map_to_list g) →
  go_sized (Scopes res) → go_sized (Wildcard res) →
  ∃ w1,
    retrievePermissions split range c stackID subject action
      {| w_state := m; w_log := log |} = ((Some res, None), w1)
    ∧ w_log w1 = log ++ [EvCacheGet key; EvRead readReq;
                         EvCacheSet key
                           (gobEncode (from_option range [] (Scopes res))
                                      (from_option range [] (Wildcard res)) res)
                           DefaultExpiration]
    ∧ retrievePermissions split range c stackID subject action w1
      = ((Some res, None),
         {| w_state := w_state w1; w_log := w_log w1 ++ [EvCacheGet key] |}).
Proof.
  intros key readReq res Hcache Hmiss Hread Hrange Hss Hsw.
  assert (gobDecode (gobEncode (from_option range [] (Scopes res))
                               (from_option range [] (Wildcard res)) res)
          = Some res) as Hdec.
  { apply decode_encode_controller; try done.
    - destruct (Scopes res); simpl; [apply Hrange|done].
    - destruct (Wildcard res); simpl; [apply Hrange|done]. }
  unfold retrievePermissions, getCachedController, cacheGet, clientRead,
    cacheController, cacheSet, mbind, M_bind, bind, ret, call.
  rewrite Hcache. cbn [cache_Get cache_Set mapCache w_state w_log].
  fold key. rewrite Hmiss.
  change (errors_Is ErrNotFound ErrNotFound) with true.
  cbn beta iota zeta delta [negb w_state w_log]. fold readReq. rewrite Hread.
  cbn beta iota zeta delta [w_state w_log]. fold res.
  eexists. split; [reflexivity|]. cbn beta iota zeta delta [w_state w_log].
  split; [by rewrite <- !app_assoc|].
  rewrite lookup_insert_eq, Hdec. done.
Qed.

(** *** Where the cache key tells queries apart *)

Fixpoint has_dash (s : string) : bool :=
  match s with
  | EmptyString => false
  | String a rest => Ascii.eqb a "-"%char || has_dash rest
  end.

(** The part of [s] before its first dash, and the part after it. *)
Fixpoint cutDash (s : string) : string * option string :=
  match s with
  | EmptyString => (EmptyString, None)
  | String a rest =>
      if Ascii.eqb a "-"%char then (EmptyString, Some rest)
      else let '(before, after) := cutDash rest in (String a before, after)
  end.

Lemma cutDash_app (s t : string) :
  has_dash s = false → cutDash (s +:+ "-" +:+ t) = (s, Some t).
Proof.
  induction s as [|a s IH]; [done|]. cbn [has_dash]. intros Hs.
  apply orb_false_iff in Hs as [Ha Hs].
  change (String a s +:+ "-" +:+ t) with (String a (s +:+ "-" +:+ t)).
  cbn [cutDash]. by rewrite Ha, IH.
Qed.

Lemma pretty_N_char_no_dash (d : N) : Ascii.eqb (pretty_N_char d) "-"%char = false.
Proof. unfold pretty_N_char. by repeat case_match. Qed.

Lemma pretty_N_go_no_dash (x : N) (s : string) :
  has_dash s = false → has_dash (pretty_N_go x s) = false.
Proof.
  revert s. induction (N.lt_wf_0 x) as [x _ IH]; intros s Hs.
  destruct (decide (x = 0)%N) as [->|Hx]; [by rewrite pretty_N_go_0|].
  rewrite pretty_N_go_step by lia. apply IH.
  - apply N.div_lt; lia.
  - cbn [has_dash]. by rewrite pretty_N_char_no_dash.
Qed.

Lemma pretty_Z_no_dash (x : Z) : 0 ≤ x → has_dash (pretty x) = false.
Proof.
  intros Hx. destruct x as [|p|p]; [done| |lia].
  unfold pretty, pretty_Z, pretty, pretty_positive, pretty, pretty_N.
  destruct (decide (N.pos p = 0)%N); [done|]. by apply pretty_N_go_no_dash.
Qed.

(** X12. The cache keys of two queries differ as soon as the queries differ,
    provided the stack identifiers are not negative and the subjects hold no
    dash: collisions need a dash in a subject. *)
Theorem controllerCacheKey_inj stackID1 subject1 action1 stackID2 subject2 action2 :
  0 ≤ stackID1 → 0 ≤ stackID2 →
  has_dash subject1 = false → has_dash subject2 = false →
  controllerCacheKey stackID1 subject1 action1
  = controllerCacheKey stackID2 subject2 action2 →
  stackID1 = stackID2 ∧ subject1 = subject2 ∧ action1 = action2.
Proof.
  intros Hid1 Hid2 Hs1 Hs2 Hkey. unfold controllerCacheKey in Hkey.
  assert (pretty stackID1 +:+ "-" +:+ subject1 +:+ "-" +:+ action1
          = pretty stackID2 +:+ "-" +:+ subject2 +:+ "-" +:+ action2) as Hrest.
  { by injection Hkey. }
  apply (f_equal cutDash) in Hrest.
  rewrite !cutDash_app in Hrest by (by apply pretty_Z_no_dash).
  injection Hrest as Hid Hrest. apply (inj pretty) in Hid.
  apply (f_equal cutDash) in Hrest. rewrite !cutDash_app in Hrest by done.
  by injection Hrest as -> ->.
Qed.

Lemma retrievePermissions_then_cached_witness :
  ∃ w1,
    retrievePermissions splitScope map_to_list (exampleClient true)
      12 "user:1" "teams:read" {| w_state := ∅; w_log := [] |}
    = ((Some examplePermissions, None), w1)
    ∧ w_log w1 = [] ++ [EvCacheGet exampleKey; EvRead exampleReadRequest;
                        EvCacheSet exampleKey exampleEncoded DefaultExpiration]
    ∧ retrievePermissions splitScope map_to_list (exampleClient true)
        12 "user:1" "teams:read" w1
      = ((Some examplePermissions, None),
         {| w_state := w_state w1; w_log := w_log w1 ++ [EvCacheGet exampleKey] |}).
Proof.
  apply (retrievePermissions_then_cached splitScope map_to_list (exampleClient true)
           12 "user:1" "teams:read" ∅ [] exampleResponse).
  - reflexivity.
  - reflexivity.
  - reflexivity.
  - intros g. reflexivity.
  - apply (bool_decide_unpack _). vm_compute. reflexivity.
  - apply (bool_decide_unpack _). vm_compute. reflexivity.
Defined.

Lemma controllerCacheKey_inj_witness :
  (12 : Z) = 12 ∧ "user:1" = "user:1" ∧ "teams:read" = "teams:read".
Proof.
  apply (controllerCacheKey_inj 12 "user:1" "teams:read" 12 "user:1" "teams:read").
  - lia.
  - lia.
  - reflexivity.
  - reflexivity.
  - reflexivity.
Defined.

(** Two subjects without a dash never share a key, whatever the actions. *)
Example controllerCacheKey_distinct :
  controllerCacheKey 12 "user:1" "teams:read" ≠ controllerCacheKey 12 "user:11" "teams:read".
Proof. vm_compute. discriminate. Qed.

(** *** The constructor at concrete options *)

(** An in-process service over the map cache: a connection is a name, the
    dial gives the connection named by the address, and the service grants
    what the example service grants. *)
Definition exampleOption : Type :=
  @LegacyClientOption (gmap string bytes) string string unit.

Definition exampleNewLegacyClient (cfg : option MultiTenantClientConfig)
    (opts : list exampleOption) : option LegacyClientImpl * option error :=
  NewLegacyClient mapCache tt (λ _, "stats-handler") (λ address _, inl address)
    (λ _ _ m, ((exampleResponse, None), m))
    (λ stackID, "stacks-" +:+ pretty stackID) cfg opts.

Definition exampleConfig (address : string) : MultiTenantClientConfig :=
  {| RemoteAddress := address; cfgAccessTokenAuthEnabled := false |}.

Definition disableOnly : list exampleOption := [WithDisableAccessTokenLCOption].

Definition fullCacheOnly : list exampleOption := [WithCacheLCOption (Some fullCache)].

(** The client built from the address ["authz:10000"] and [fullCacheOnly]. *)
Definition builtClient : LegacyClientImpl := {|
  accessTokenAuthEnabled := true;
  clientV1_Read := λ _ m, ((exampleResponse, None), m);
  cache := fullCache;
  namespaceFmt := λ stackID, "stacks-" +:+ pretty stackID;
|}.

Lemma NewLegacyClient_with_connection_witness :
  ∃ client,
    exampleNewLegacyClient (Some (exampleConfig ""))
      (disableOnly
         ++ WithGrpcConnectionLCOption (Some "in-process") :: [WithCacheLCOption None])
    = (Some client, None)
    ∧ clientV1_Read client = (λ _ m, ((exampleResponse, None), m)).
Proof.
  apply (NewLegacyClient_with_connection mapCache tt (λ _, "stats-handler")
           (λ address _, inl address) (λ _ _ m, ((exampleResponse, None), m))
           (λ stackID, "stacks-" +:+ pretty stackID)).
  intros conn' [H|[]]. discriminate H.
Defined.

Lemma NewLegacyClient_without_connection_witness :
  (RemoteAddress (exampleConfig "") = "" →
   ∃ err, exampleNewLegacyClient (Some (exampleConfig "")) disableOnly = (None, Some err)
          ∧ errors_Is err ErrMissingConfig = true)
  ∧ (RemoteAddress (exampleConfig "") ≠ "" →
     (∀ o, ¬ In (WithGrpcDialOptionsLCOption o) disableOnly) →
     (∀ t, ¬ In (WithTracerLCOption t) disableOnly) →
     ∃ client,
       exampleNewLegacyClient (Some (exampleConfig "")) disableOnly = (Some client, None)
       ∧ clientV1_Read client = (λ _ m, ((exampleResponse, None), m))).
Proof.
  apply (NewLegacyClient_without_connection mapCache tt (λ _, "stats-handler")
           (λ address _, inl address) (λ _ _ m, ((exampleResponse, None), m))
           (λ stackID, "stacks-" +:+ pretty stackID)).
  intros conn [H|[]]. discriminate H.
Defined.

Lemma NewLegacyClient_cache_witness :
  ((∀ ch, ¬ In (WithCacheLCOption ch) fullCacheOnly) → cache builtClient = mapCache)
  ∧ (∀ before ch after,
       fullCacheOnly = before ++ WithCacheLCOption ch :: after →
       (∀ ch', ¬ In (WithCacheLCOption ch') after) →
       cache builtClient = default mapCache ch).
Proof.
  apply (NewLegacyClient_cache mapCache tt (λ _, "stats-handler")
           (λ address _, inl address) (λ _ _ m, ((exampleResponse, None), m))
           (λ stackID, "stacks-" +:+ pretty stackID)
           (exampleConfig "authz:10000") fullCacheOnly).
  reflexivity.
Defined.

(** The cache option is the one the client uses, and an address is dialled
    when no connection is given. *)
Example NewLegacyClient_uses_cache_option :
  exampleNewLegacyClient (Some (exampleConfig "authz:10000")) fullCacheOnly
  = (Some builtClient, None).
Proof. reflexivity. Qed.

(** The flag the caller sets in the configuration is not the one the client
    gets: it is on unless the option that disables it is given. *)
Example NewLegacyClient_flag_overwritten :
  (accessTokenAuthEnabled <$> (exampleNewLegacyClient (Some (exampleConfig "authz:10000")) []).1)
  = Some true
  ∧ (accessTokenAuthEnabled <$>
       (exampleNewLegacyClient (Some (exampleConfig "authz:10000"))
          [WithDisableAccessTokenLCOption]).1)
    = Some false
  ∧ exampleNewLegacyClient None [] = (None, Some ErrMissingConfig).
Proof. repeat split. Qed.

End authz.

(** ** Package client: the counting cache of the tests *)

Module client.

(** Go's [int], 64 bits wide: the value of [n] after wrap-around. *)
Definition wrap_int (n : Z) : Z := (n + 2 ^ 63) mod 2 ^ 64 - 2 ^ 63.

(** The counters of [CacheWrap]; its [cache] field is the cache it wraps. *)
Record CacheWrap := {
  successReadCnt : Z;
  successWriteCnt : Z;
  successDeleteCnt : Z;
}.

Section CacheWrap.
Context {S : Type}.

(** [CacheWrap.Get(ctx, key)] *)
Definition CacheWrap_Get (cache : Cache S) (key : string) (st : CacheWrap * S)
  : (bytes * option error) * (CacheWrap * S) :=
  let '(c, s) := st in
  let '((get, err), s') := cache_Get cache key s in
  match err with
  | None =>
      ((get, err),
       ({| successReadCnt := wrap_int (successReadCnt c + 1);
           successWriteCnt := successWriteCnt c;
           successDeleteCnt := successDeleteCnt c |}, s'))
  | Some _ => ((get, err), (c, s'))
  end.

(** [CacheWrap.Set(ctx, key, data, exp)] *)
Definition CacheWrap_Set (cache : Cache S) (key : string) (data : bytes) (exp : Duration)
    (st : CacheWrap * S) : option error * (CacheWrap * S) :=
  let '(c, s) := st in
  let '(err, s') := cache_Set cache key data exp s in
  match err with
  | None =>
      (err,
       ({| successReadCnt := successReadCnt c;
           successWriteCnt := wrap_int (successWriteCnt c + 1);
           successDeleteCnt := successDeleteCnt c |}, s'))
  | Some _ => (err, (c, s'))
  end.

(** [CacheWrap.Delete(ctx, key)] *)
Definition CacheWrap_Delete (cache : Cache S) (key : string) (st : CacheWrap * S)
  : option error * (CacheWrap * S) :=
  let '(c, s) := st in
  let '(err, s') := cache_Delete cache key s in
  match err with
  | None =>
      (err,
       ({| successReadCnt := successReadCnt c;
           successWriteCnt := successWriteCnt c;
           successDeleteCnt := wrap_int (successDeleteCnt c + 1) |}, s'))
  | Some _ => (err, (c, s'))
  end.

(** [CacheWrap] as a [cache.Cache]. *)
Definition wrapped (cache : Cache S) : Cache (CacheWrap * S) := {|
  cache_Get := CacheWrap_Get cache;
  cache_Set := CacheWrap_Set cache;
  cache_Delete := CacheWrap_Delete cache;
|}.

(** The permission client handed the counting cache in place of its own:
    [WithCacheLCOption(testCache)]. The authorization service does not see
    the counters. *)
Definition withCacheWrap (c : @authz.LegacyClientImpl S) : @authz.LegacyClientImpl (CacheWrap * S) := {|
  authz.accessTokenAuthEnabled := authz.accessTokenAuthEnabled c;
  authz.clientV1_Read req st :=
    let '(r, s') := authz.clientV1_Read c req (snd st) in (r, (fst st, s'));
  authz.cache := wrapped (authz.cache c);
  authz.namespaceFmt := authz.namespaceFmt c;
|}.

Variable NamespaceMatches : string → string → bool.
Variable Scope : authz.Resource → string.
Variable splitScope : string → string * string * string.
Variable rangeMap : gmap string bool → list (string * bool).

Ltac run :=
  unfold mbind, M_bind, bind, ret, call in *;
  cbn beta iota zeta delta [fst snd w_state w_log negb andb orb] in *.

(** The counting cache is transparent: with it the resolution step returns
    what it returns without it, leaves the wrapped cache and the service in
    the same state and makes the same calls. *)
Lemma retrievePermissions_through_CacheWrap c stackID subject action cnt s log :
  let '(r, w) :=
    authz.retrievePermissions splitScope rangeMap (withCacheWrap c) stackID subject action
      {| w_state := (cnt, s); w_log := log |} in
  let '(r0, w0) :=
    authz.retrievePermissions splitScope rangeMap c stackID subject action
      {| w_state := s; w_log := log |} in
  r = r0 ∧ snd (w_state w) = w_state w0 ∧ w_log w = w_log w0.
Proof.
  unfold authz.retrievePermissions, authz.getCachedController, cacheGet,
    authz.clientRead, authz.cacheController, cacheSet. run.
  cbn [authz.cache withCacheWrap wrapped cache_Get cache_Set CacheWrap_Get
       CacheWrap_Set authz.clientV1_Read].
  destruct (cache_Get (authz.cache c) _ s) as [[data [e|]] s1]; run.
  - destruct (errors_Is e ErrNotFound); run; [|done].
    destruct (authz.clientV1_Read c _ s1) as [[resp [e'|]] s2]; run; [done|].
    cbn [CacheWrap_Set].
    destruct (cache_Set (authz.cache c) _ _ _ s2) as [[e''|] s3]; run; done.
  - destruct (authz.gobDecode data); run; [done|].
    destruct (errors_Is ErrGobDecode ErrNotFound); run; [|done].
    destruct (authz.clientV1_Read c _ s1) as [[resp [e'|]] s2]; run; [done|].
    cbn [CacheWrap_Set].
    destruct (cache_Set (authz.cache c) _ _ _ s2) as [[e''|] s3]; run; done.
Qed.

(** X17. The counting cache is transparent to a check: with it [Check]
    returns the decision and the error it returns without it, leaves the
    wrapped cache and the service in the same state and makes the same
    calls. *)
Theorem Check_through_CacheWrap c req cnt s log :
  let '(r, w) :=
    authz.Check NamespaceMatches Scope splitScope rangeMap (withCacheWrap c) req
      {| w_state := (cnt, s); w_log := log |} in
  let '(r0, w0) :=
    authz.Check NamespaceMatches Scope splitScope rangeMap c req
      {| w_state := s; w_log := log |} in
  r = r0 ∧ snd (w_state w) = w_state w0 ∧ w_log w = w_log w0.
Proof.
  unfold authz.Check.
  change (authz.accessTokenAuthEnabled (withCacheWrap c))
    with (authz.accessTokenAuthEnabled c).
  destruct (authz.Validate req (authz.accessTokenAuthEnabled c)); [done|].
  change (authz.validateNamespace NamespaceMatches (withCacheWrap c))
    with (authz.validateNamespace NamespaceMatches c).
  destruct (authz.validateNamespace NamespaceMatches c _ _); [|done]. cbn [negb].
  change (authz.checkService (withCacheWrap c) req) with (authz.checkService c req).
  change (authz.checkDelegation (withCacheWrap c) req) with (authz.checkDelegation c req).
  destruct (authz.GetIdentity (authz.Caller req)) as [i|]; [|done].
  destruct (authz.IdentityIsNil i); [done|].
  destruct (authz.checkDelegation c req); [done|].
  pose proof (retrievePermissions_through_CacheWrap c (authz.StackID req)
                (authz.Subject i) (authz.Action req) cnt s log) as Hsim.
  unfold mbind, M_bind, bind.
  destruct (authz.retrievePermissions splitScope rangeMap (withCacheWrap c) _ _ _ _)
    as [[res err] w].
  destruct (authz.retrievePermissions splitScope rangeMap c _ _ _ _) as [[res0 err0] w0].
  destruct Hsim as ([= -> ->] & Hst & Hlog).
  destruct err0; [done|]. destruct res0; done.
Qed.

End CacheWrap.

(** X18. Over the map cache, with a service that leaves the cache alone: the
    first resolution of a triple that is not cached counts one successful
    write and no successful read (the lookup that misses is an error), the
    second counts one successful read and no further write; nothing is ever
    deleted. *)
Theorem CacheWrap_counts_miss_then_hit
    (split : string → string * string * string)
    (range : gmap string bool → list (string * bool))
    (c : authz.LegacyClientImpl) stackID subject action
    (cnt : CacheWrap) (m : gmap string bytes) log resp :
  let key := authz.controllerCacheKey stackID subject action in
  let readReq := {| StackId := stackID; ReadAction := action; ReadSubject := subject |} in
  let res := authz.newController split resp in
  let w1 := snd (authz.retrievePermissions split range (withCacheWrap c)
                   stackID subject action {| w_state := (cnt, m); w_log := log |}) in
  let w2 := snd (authz.retrievePermissions split range (withCacheWrap c)
                   stackID subject action w1) in
  authz.cache c = mapCache →
  m !! key = None →
  authz.clientV1_Read c readReq m = ((resp, None), m) →
  (∀ g, range g ≡ₚ map_to_list g) →
  authz.go_sized (authz.Scopes res) → authz.go_sized (authz.Wildcard res) →
  fst (w_state w1)
  = {| successReadCnt := successReadCnt cnt;
       successWriteCnt := wrap_int (successWriteCnt cnt + 1);
       successDeleteCnt := successDeleteCnt cnt |}
  ∧ fst (w_state w2)
    = {| successReadCnt := wrap_int (successReadCnt cnt + 1);
         successWriteCnt := wrap_int (successWriteCnt cnt + 1);
         successDeleteCnt := successDeleteCnt cnt |}.
Proof.
  intros key readReq res w1 w2 Hcache Hmiss Hread Hrange Hss Hsw.
  assert (authz.gobDecode
            (authz.gobEncode (from_option range [] (authz.Scopes res))
                             (from_option range [] (authz.Wildcard res)) res)
          = Some res) as Hdec.
  { apply authz.decode_encode_controller; try done.
    - destruct (authz.Scopes res); simpl; [apply Hrange|done].
    - destruct (authz.Wildcard res); simpl; [apply Hrange|done]. }
  subst w2 w1.
  unfold authz.retrievePermissions, authz.getCachedController, cacheGet,
    authz.clientRead, authz.cacheController, cacheSet, mbind, M_bind, bind, ret, call.
  cbn [authz.cache withCacheWrap wrapped cache_Get cache_Set CacheWrap_Get
       CacheWrap_Set authz.clientV1_Read w_state w_log fst snd].
  rewrite Hcache. cbn [cache_Get cache_Set mapCache fst snd].
  fold key. rewrite Hmiss.
  change (errors_Is ErrNotFound ErrNotFound) with true.
  cbn beta iota zeta delta [negb w_state w_log fst snd]. fold readReq. rewrite Hread.
  cbn beta iota zeta delta [w_state w_log fst snd CacheWrap_Set cache_Set mapCache].
  fold res. split; [reflexivity|].
  cbn beta iota zeta delta [CacheWrap_Get cache_Get mapCache].
  rewrite lookup_insert_eq.
  cbn beta iota zeta delta [w_state w_log fst snd successReadCnt successWriteCnt
                            successDeleteCnt].
  rewrite Hdec. reflexivity.
Qed.

Lemma CacheWrap_counts_miss_then_hit_witness :
  let zero := {| successReadCnt := 0; successWriteCnt := 0; successDeleteCnt := 0 |} in
  let w1 := snd (authz.retrievePermissions authz.splitScope map_to_list
                   (withCacheWrap (authz.exampleClient true)) 12 "user:1" "teams:read"
                   {| w_state := (zero, ∅); w_log := [] |}) in
  let w2 := snd (authz.retrievePermissions authz.splitScope map_to_list
                   (withCacheWrap (authz.exampleClient true)) 12 "user:1" "teams:read"
                   w1) in
  fst (w_state w1)
  = {| successReadCnt := 0; successWriteCnt := wrap_int (0 + 1); successDeleteCnt := 0 |}
  ∧ fst (w_state w2)
    = {| successReadCnt := wrap_int (0 + 1); successWriteCnt := wrap_int (0 + 1);
         successDeleteCnt := 0 |}.
Proof.
  apply (CacheWrap_counts_miss_then_hit authz.splitScope map_to_list
           (authz.exampleClient true) 12 "user:1" "teams:read"
           {| successReadCnt := 0; successWriteCnt := 0; successDeleteCnt := 0 |}
           ∅ [] authz.exampleResponse).
  - reflexivity.
  - reflexivity.
  - reflexivity.
  - intros g. reflexivity.
  - apply (bool_decide_unpack _). vm_compute. reflexivity.
  - apply (bool_decide_unpack _). vm_compute. reflexivity.
Defined.

(** The counters after the two calls, as the test of the search client
    reads them: one write, one read. *)
Example CacheWrap_one_write_one_read :
  let zero := {| successReadCnt := 0; successWriteCnt := 0; successDeleteCnt := 0 |} in
  let w1 := snd (authz.retrievePermissions authz.splitScope map_to_list
                   (withCacheWrap (authz.exampleClient true)) 12 "user:1" "teams:read"
                   {| w_state := (zero, ∅); w_log := [] |}) in
  let w2 := snd (authz.retrievePermissions authz.splitScope map_to_list
                   (withCacheWrap (authz.exampleClient true)) 12 "user:1" "teams:read"
                   w1) in
  fst (w_state w2)
  = {| successReadCnt := 1; successWriteCnt := 1; successDeleteCnt := 0 |}.
Proof. vm_compute. reflexivity. Qed.

End client.

(** ** Package authn *)

Module authn.

(** [jose.JSONWebKey], by its key identifier and its key material. *)
Record JSONWebKey := {
  JwkKeyID : string;
  JwkMaterial : bytes;
}.

(** A value of type [interface{}] read from JSON; the contents of arrays
    and objects play no part. *)
Inductive JSONValue : Type :=
  | JString (s : string)
  | JNumber (n : Z)
  | JBool (b : bool)
  | JNull
  | JArray
  | JObject.

(** [jose.Header]: [ExtraHeaders] is [None] when it is the nil map. *)
Record Header := {
  KeyID : string;
  ExtraHeaders : option (gmap string JSONValue);
}.

(** [jwt.JSONWebToken] as the verifier reads it: one header per signature;
    [TokenID] names the signed payload for the library functions. *)
Record JSONWebToken := {
  Headers : list Header;
  TokenID : string;
}.

(** [cacheTTL = 10 * time.Minute] *)
Definition cacheTTL : Duration := Nanoseconds (10 * 60 * 1000000000).

(** The answer of [http.DefaultClient.Do]: a transport error, or a response
    with its status code and body. *)
Inductive HTTPResult : Type :=
  | TransportError
  | Response (status : Z) (body : bytes).

(** [h.ExtraHeaders["typ"].(string)]: the value and whether the assertion
    holds; a missing key gives the nil interface, which is not a string. *)
Definition typ_string (h : Header) : string * bool :=
  match ExtraHeaders h with
  | Some m =>
      match m !! "typ" with
      | Some (JString t) => (t, true)
      | _ => ("", false)
      end
  | None => ("", false)
  end.

(** The loop of [validType] over the headers. *)
Fixpoint validTypeLoop (headers : list Header) (typ : string) : bool :=
  match headers with
  | [] => false
  | h :: rest =>
      let '(t, ok) := typ_string h in
      if negb ok || (ok && String.eqb t typ) then true
      else validTypeLoop rest typ
  end.

(** [validType(token, typ) bool] *)
Definition validType (token : JSONWebToken) (typ : string) : bool :=
  if String.eqb typ "" then true
  else validTypeLoop (Headers token) typ.

(** [mapErr(err) error] *)
Definition mapErr (err : error) : error :=
  if errors_Is err ErrJWTExpired then ErrExpiredToken
  else if errors_Is err ErrJWTInvalidAudience then ErrInvalidAudience
  else err.

(** [getKeyID(headers) (string, error)] *)
Fixpoint getKeyID (headers : list Header) : string * option error :=
  match headers with
  | [] => ("", Some ErrInvalidSigningKey)
  | h :: rest =>
      if negb (String.eqb (KeyID h) "") then (KeyID h, None)
      else getKeyID rest
  end.

(** On a token with one header: a string [typ] must equal the configured
    type, and a header without [typ] passes. *)
Lemma validType_one_header_string h token_id typ t :
  typ ≠ "" → typ_string h = (t, true) →
  validType {| Headers := [h]; TokenID := token_id |} typ = true ↔ t = typ.
Proof.
  intros Htyp Ht. unfold validType. simpl.
  destruct (String.eqb_spec typ ""); [done|]. rewrite Ht. simpl.
  destruct (String.eqb_spec t typ); naive_solver.
Qed.

Lemma validType_one_header_absent h token_id typ :
  (∀ m, ExtraHeaders h = Some m → m !! "typ" = None) →
  validType {| Headers := [h]; TokenID := token_id |} typ = true.
Proof.
  intros Habs. unfold validType. destruct (String.eqb typ ""); [done|].
  simpl. unfold typ_string. destruct (ExtraHeaders h) as [m|]; [|done].
  by rewrite (Habs m eq_refl).
Qed.

Lemma getKeyID_all_empty (headers : list Header) :
  Forall (λ h, KeyID h = "") headers → getKeyID headers = ("", Some ErrInvalidSigningKey).
Proof.
  induction 1 as [|h rest Hh _ IH]; [done|]. simpl. by rewrite Hh, IH.
Qed.

(** X19. The key identifier of a token is that of its first header that has
    one; there is none exactly when every header has an empty one. *)
Theorem getKeyID_first (headers : list Header) :
  match getKeyID headers with
  | (keyID, None) =>
      keyID ≠ ""
      ∧ ∃ before h after,
          headers = before ++ h :: after
          ∧ Forall (λ h', KeyID h' = "") before ∧ KeyID h = keyID
  | (keyID, Some err) =>
      keyID = "" ∧ err = ErrInvalidSigningKey ∧ Forall (λ h, KeyID h = "") headers
  end.
Proof.
  induction headers as [|h rest IH]; simpl; [done|].
  destruct (String.eqb_spec (KeyID h) "") as [Hempty|Hne]; simpl.
  - destruct (getKeyID rest) as [keyID [err|]].
    + destruct IH as (? & ? & ?). repeat split; try done. by constructor.
    + destruct IH as (? & before & h' & after & -> & Hall & Hk).
      split; [done|]. exists (h :: before), h', after.
      repeat split; try done. by constructor.
  - split; [done|]. exists [], h, rest. repeat split; done.
Qed.

(** X20. With a configured type, a token passes the type check exactly when one
    of its headers either carries no string [typ] or carries the configured
    type. *)
Theorem validType_some_header (token : JSONWebToken) (typ : string) :
  typ ≠ "" →
  validType token typ = true ↔
  ∃ h, In h (Headers token) ∧ (snd (typ_string h) = false ∨ typ_string h = (typ, true)).
Proof.
  intros Htyp. unfold validType. destruct (String.eqb_spec typ ""); [done|].
  induction (Headers token) as [|h rest IH]; simpl.
  - split; [done|]. by intros (? & [] & _).
  - destruct (typ_string h) as [t ok] eqn:Ht. destruct ok; simpl.
    + destruct (String.eqb_spec t typ) as [->|Hne].
      * split; [|done]. intros _. exists h. rewrite Ht. auto.
      * rewrite IH. split.
        -- intros (h' & Hin & Hh'). eauto.
        -- intros (h' & [<-|Hin] & Hh'); [|eauto].
           rewrite Ht in Hh'. simpl in Hh'. destruct Hh' as [?|[= ?]]; done.
    + split; [|done]. intros _. exists h. rewrite Ht. auto.
Qed.

Section KeyRetriever.
Context {S : Type}.

(** [encoding/json] on keys and key sets, and [http.NewRequestWithContext]
    on the URL: library functions, kept abstract. *)
Variable jsonEncodeKey : JSONWebKey → option bytes.
Variable jsonDecodeKey : bytes → option JSONWebKey.
Variable jsonDecodeKeySet : bytes → option (list JSONWebKey).
Variable newRequest : string → option error.

(** [DefaultKeyRetriever]: its configuration, its cache and the HTTP client
    it calls. *)
Record DefaultKeyRetriever := {
  SigningKeysURL : string;
  c : Cache S;
  httpDo : string → S → HTTPResult * S;
}.

(** [DefaultKeyRetriever.fetchJWKS(ctx)], a key set and an error. *)
Definition fetchJWKS (s : DefaultKeyRetriever) : M S (option (list JSONWebKey) * option error) :=
  match newRequest (SigningKeysURL s) with
  | Some err => ret (None, Some err)
  | None =>
      resp ← call (EvHTTPGet (SigningKeysURL s)) (httpDo s (SigningKeysURL s));
      match resp with
      | TransportError => ret (None, Some (ErrWrap ErrFetchingSigningKey "request error"))
      | Response status body =>
          if negb (status =? 200) then ret (None, Some ErrFetchingSigningKey)
          else match jsonDecodeKeySet body with
               | None =>
                   ret (None, Some (ErrWrap ErrFetchingSigningKey
                                      "unable to decode response"))
               | Some jwks => ret (Some jwks, None)
               end
      end
  end.

(** [DefaultKeyRetriever.getCachedItem(ctx, keyID)], a key and whether the
    cache answered. *)
Definition getCachedItem (s : DefaultKeyRetriever) (keyID : string)
  : M S (option JSONWebKey * bool) :=
  '(data, err) ← cacheGet (c s) keyID;
  match err with
  | Some _ => ret (None, false)
  | None =>
      if (length data =? 0)%nat then ret (None, true)
      else match jsonDecodeKey data with
           | None => ret (None, false)
           | Some jwk => ret (Some jwk, true)
           end
  end.

(** [DefaultKeyRetriever.setCachedItem(ctx, key)] *)
Definition setCachedItem (s : DefaultKeyRetriever) (key : JSONWebKey) : M S unit :=
  match jsonEncodeKey key with
  | None => ret tt
  | Some buf =>
      _ ← cacheSet (c s) (JwkKeyID key) buf NoExpiration;
      ret tt
  end.

(** [DefaultKeyRetriever.setEmptyCacheItem(ctx, keyID)] *)
Definition setEmptyCacheItem (s : DefaultKeyRetriever) (keyID : string) : M S unit :=
  _ ← cacheSet (c s) keyID [] cacheTTL;
  ret tt.

(** [for i := range jwks.Keys { s.setCachedItem(ctx, jwks.Keys[i]) }] *)
Fixpoint setCachedItems (s : DefaultKeyRetriever) (keys : list JSONWebKey) : M S unit :=
  match keys with
  | [] => ret tt
  | key :: rest =>
      _ ← setCachedItem s key;
      setCachedItems s rest
  end.

(** The function handed to [singleflight.Group.Do]. *)
Definition fetchAndCache (s : DefaultKeyRetriever) : M S (option error) :=
  '(jwks, err) ← fetchJWKS s;
  match err, jwks with
  | Some e, _ => ret (Some e)
  | None, Some keys =>
      _ ← setCachedItems s keys;
      ret None
  | None, None => ret None
  end.

(** The end of [Get]: a nil key is an invalid signing key. *)
Definition keyOrInvalid (jwk : option JSONWebKey) : option JSONWebKey * option error :=
  match jwk with
  | None => (None, Some ErrInvalidSigningKey)
  | Some k => (Some k, None)
  end.

(** [DefaultKeyRetriever.Get(ctx, keyID)], a key and an error. The call to
    [singleflight.Group.Do] is the call of one caller with no fetch in
    flight: it runs the function it is given. *)
Definition Get (s : DefaultKeyRetriever) (keyID : string)
  : M S (option JSONWebKey * option error) :=
  '(jwk, ok) ← getCachedItem s keyID;
  if negb ok then
    err ← fetchAndCache s;
    match err with
    | Some e => ret (None, Some e)
    | None =>
        '(jwk, ok) ← getCachedItem s keyID;
        _ ← (if negb ok then setEmptyCacheItem s keyID else ret tt);
        ret (keyOrInvalid jwk)
    end
  else ret (keyOrInvalid jwk).

(** *** The key retriever when the fetch fails *)

Ltac run :=
  unfold mbind, M_bind, bind, ret, call in *;
  cbn beta iota zeta delta [fst snd w_state w_log negb andb orb] in *.

(** A cache lookup is one read of the cache. *)
Lemma getCachedItem_world s keyID w r w1 :
  getCachedItem s keyID w = (r, w1) →
  w1 = {| w_state := snd (cache_Get (c s) keyID (w_state w));
          w_log := w_log w ++ [EvCacheGet keyID] |}.
Proof.
  unfold getCachedItem, cacheGet. run.
  destruct (cache_Get _ _ _) as [[data [e|]] s1]; run; [congruence|].
  destruct (length data =? 0)%nat; [congruence|].
  destruct (jsonDecodeKey data); congruence.
Qed.

(** The three ways the fetch of the key set fails once the request is
    sent: each gives an error that is [ErrFetchingSigningKey]. *)
Lemma fetchJWKS_failure s w result s2 :
  newRequest (SigningKeysURL s) = None →
  httpDo s (SigningKeysURL s) (w_state w) = (result, s2) →
  (result = TransportError
   ∨ ∃ status body, result = Response status body
                    ∧ (status ≠ 200 ∨ jsonDecodeKeySet body = None)) →
  ∃ err, fetchJWKS s w
         = ((None, Some err),
            {| w_state := s2; w_log := w_log w ++ [EvHTTPGet (SigningKeysURL s)] |})
         ∧ errors_Is err ErrFetchingSigningKey = true.
Proof.
  intros Hreq Hdo Hfail. unfold fetchJWKS. rewrite Hreq. run. rewrite Hdo.
  destruct Hfail as [-> | (status & body & -> & Hbad)]; [eauto|].
  destruct (Z.eqb_spec status 200) as [-> | Hne]; run.
  - destruct Hbad as [? | ->]; [done|]. eauto.
  - eauto.
Qed.

(** C7. When the cache lookup misses and the fetch of the key set fails
    (transport error, a status other than 200, or a body that does not
    decode), [Get] fails with an error that is [ErrFetchingSigningKey], and
    the cache has been read once and never written: the only calls are the
    lookup and the HTTP request, and the state left behind is the one the
    lookup and the endpoint left, so no placeholder is stored for the key. *)
Theorem Get_fetch_failure_writes_nothing s keyID w result s2 :
  snd (fst (getCachedItem s keyID w)) = false →
  newRequest (SigningKeysURL s) = None →
  httpDo s (SigningKeysURL s) (snd (cache_Get (c s) keyID (w_state w))) = (result, s2) →
  (result = TransportError
   ∨ ∃ status body, result = Response status body
                    ∧ (status ≠ 200 ∨ jsonDecodeKeySet body = None)) →
  ∃ err, Get s keyID w
         = ((None, Some err),
            {| w_state := s2;
               w_log := w_log w ++ [EvCacheGet keyID; EvHTTPGet (SigningKeysURL s)] |})
         ∧ errors_Is err ErrFetchingSigningKey = true.
Proof.
  intros Hmiss Hreq Hdo Hfail.
  destruct (getCachedItem s keyID w) as [[jwk ok] w1] eqn:Hlookup.
  simpl in Hmiss. subst ok.
  pose proof (getCachedItem_world _ _ _ _ _ Hlookup) as Hw1.
  assert (w_state w1 = snd (cache_Get (c s) keyID (w_state w))) as Hs1 by (by rewrite Hw1).
  rewrite <- Hs1 in Hdo.
  destruct (fetchJWKS_failure s w1 result s2 Hreq Hdo Hfail) as (err & Hfetch & His).
  exists err. split; [|done].
  unfold Get, fetchAndCache. run. rewrite Hlookup. run. rewrite Hfetch. run.
  rewrite Hw1. simpl. by rewrite <- app_assoc.
Qed.

(** When the request cannot even be built, [Get] returns that error as it
    is, and again writes nothing. *)
Lemma Get_request_error s keyID w jwk w1 err :
  getCachedItem s keyID w = ((jwk, false), w1) →
  newRequest (SigningKeysURL s) = Some err →
  Get s keyID w = ((None, Some err), w1).
Proof.
  intros Hmiss Hreq. unfold Get, fetchAndCache, fetchJWKS. run.
  rewrite Hmiss. run. rewrite Hreq. by run.
Qed.

(** *** The key retriever on a cache hit *)

(** X21. A key found in the cache is returned from the one cache read: nothing
    is fetched and nothing is written. *)
Theorem Get_cached_key s keyID w data s1 jwk :
  cache_Get (c s) keyID (w_state w) = ((data, None), s1) →
  data ≠ [] → jsonDecodeKey data = Some jwk →
  Get s keyID w
  = ((Some jwk, None), {| w_state := s1; w_log := w_log w ++ [EvCacheGet keyID] |}).
Proof.
  intros Hget Hdata Hdec. unfold Get, getCachedItem, cacheGet. run.
  rewrite Hget. run. destruct data as [|b data]; [done|]. simpl. by rewrite Hdec.
Qed.

(** X22. An empty cache entry is the mark of a key known to be invalid: [Get]
    fails with [ErrInvalidSigningKey] from the one cache read, without a
    fetch. *)
Theorem Get_known_invalid_key s keyID w s1 :
  cache_Get (c s) keyID (w_state w) = (([], None), s1) →
  Get s keyID w
  = ((None, Some ErrInvalidSigningKey),
     {| w_state := s1; w_log := w_log w ++ [EvCacheGet keyID] |}).
Proof.
  intros Hget. unfold Get, getCachedItem, cacheGet. run. by rewrite Hget.
Qed.

End KeyRetriever.

Section Verifier.
Context {S : Type} {ClaimsT : Type}.

(** The calls into go-jose and the clock, kept abstract: [jwt.ParseSigned],
    [JSONWebToken.Claims] (signature check and decoding) and
    [Claims.Validate] against the allowed audiences at [time.Now()]. *)
Variable ParseSigned : string → option JSONWebToken.
Variable tokenClaims : JSONWebToken → option JSONWebKey → string → ClaimsT + error.
Variable claimsValidate : ClaimsT → list string → option error.

(** [VerifierBase]; [keys] is the [KeyRetriever] interface. *)
Record VerifierBase := {
  AllowedAudiences : list string;
  tokenType : string;
  keys : string → M S (option JSONWebKey * option error);
}.

(** [VerifierBase.Verify(ctx, token)], the claims and an error. *)
Definition Verify (v : VerifierBase) (token : string) : M S (option ClaimsT * option error) :=
  match ParseSigned token with
  | None => ret (None, Some ErrParseToken)
  | Some parsed =>
      if negb (validType parsed (tokenType v)) then ret (None, Some ErrInvalidTokenType)
      else
        match getKeyID (Headers parsed) with
        | (_, Some err) => ret (None, Some err)
        | (keyID, None) =>
            '(jwk, err) ← keys v keyID;
            match err with
            | Some e => ret (None, Some e)
            | None =>
                match tokenClaims parsed jwk token with
                | inr e => ret (None, Some e)
                | inl claims =>
                    match claimsValidate claims (AllowedAudiences v) with
                    | Some e => ret (None, Some (mapErr e))
                    | None => ret (Some claims, None)
                    end
                end
            end
        end
  end.

(** *** The token-type check *)

(** A wrong type is refused before any key is looked up. *)
Lemma Verify_invalid_type v token parsed w :
  ParseSigned token = Some parsed →
  validType parsed (tokenType v) = false →
  Verify v token w = ((None, Some ErrInvalidTokenType), w).
Proof. intros Hp Ht. unfold Verify. by rewrite Hp, Ht. Qed.

(** A token that passes the type check goes on to the key lookup. *)
Lemma Verify_valid_type v token parsed keyID w :
  ParseSigned token = Some parsed →
  validType parsed (tokenType v) = true →
  getKeyID (Headers parsed) = (keyID, None) →
  ∀ jwk w' claims,
    keys v keyID w = ((jwk, None), w') →
    tokenClaims parsed jwk token = inl claims →
    claimsValidate claims (AllowedAudiences v) = None →
    Verify v token w = ((Some claims, None), w').
Proof.
  intros Hp Ht Hk jwk w' claims Hget Hc Hval. unfold Verify.
  rewrite Hp, Ht, Hk. simpl. unfold mbind, M_bind, bind, ret.
  by rewrite Hget, Hc, Hval.
Qed.

(** X25. A token that does not parse, that has the wrong type or that names no
    key is refused before the key retriever is asked: the world is as it
    was. *)
Theorem Verify_fails_before_key_lookup v token w :
  match ParseSigned token with
  | None => Verify v token w = ((None, Some ErrParseToken), w)
  | Some parsed =>
      (validType parsed (tokenType v) = false →
       Verify v token w = ((None, Some ErrInvalidTokenType), w))
      ∧ (validType parsed (tokenType v) = true →
         Forall (λ h, KeyID h = "") (Headers parsed) →
         Verify v token w = ((None, Some ErrInvalidSigningKey), w))
  end.
Proof.
  unfold Verify. destruct (ParseSigned token) as [parsed|]; [|done].
  split; intros Ht; rewrite Ht; [done|]. intros Hall. simpl.
  by rewrite (getKeyID_all_empty _ Hall).
Qed.

(** X26. The signature is checked before the claims are validated: a token
    whose signature check fails is refused with that error whatever its
    expiry. Of the validation errors, an expired token gives
    [ErrExpiredToken], a wrong audience [ErrInvalidAudience], expiry coming
    first, and any other error is returned as it is. *)
Theorem Verify_claims_errors v token parsed keyID jwk w w' :
  ParseSigned token = Some parsed →
  validType parsed (tokenType v) = true →
  getKeyID (Headers parsed) = (keyID, None) →
  keys v keyID w = ((jwk, None), w') →
  match tokenClaims parsed jwk token with
  | inr e => Verify v token w = ((None, Some e), w')
  | inl claims =>
      match claimsValidate claims (AllowedAudiences v) with
      | None => Verify v token w = ((Some claims, None), w')
      | Some e =>
          ∃ err, Verify v token w = ((None, Some err), w')
            ∧ (errors_Is e ErrJWTExpired = true → err = ErrExpiredToken)
            ∧ (errors_Is e ErrJWTExpired = false →
               errors_Is e ErrJWTInvalidAudience = true → err = ErrInvalidAudience)
            ∧ (errors_Is e ErrJWTExpired = false →
               errors_Is e ErrJWTInvalidAudience = false → err = e)
      end
  end.
Proof.
  intros Hp Ht Hk Hget. unfold Verify. rewrite Hp, Ht, Hk. simpl.
  unfold mbind, M_bind, bind, ret. rewrite Hget.
  destruct (tokenClaims parsed jwk token) as [claims|e]; [|done].
  destruct (claimsValidate claims (AllowedAudiences v)) as [e|]; [|done].
  exists (mapErr e). split; [done|]. unfold mapErr.
  destruct (errors_Is e ErrJWTExpired), (errors_Is e ErrJWTInvalidAudience);
    repeat split; intros; congruence.
Qed.

End Verifier.

(** *** Concrete collaborators *)

(** A stand-in for [encoding/json] on keys: a key is stored as the bytes of
    its identifier, and a key set names one key. *)
Definition encodeKey (key : JSONWebKey) : option bytes :=
  Some (String.list_byte_of_string (JwkKeyID key)).

Definition decodeKey (data : bytes) : option JSONWebKey :=
  Some {| JwkKeyID := String.string_of_list_byte data; JwkMaterial := [] |}.

Definition decodeKeySet (body : bytes) : option (list JSONWebKey) :=
  match body with
  | [] => None
  | _ => option_map (λ k, [k]) (decodeKey body)
  end.

(** A retriever whose endpoint answers every request with [answer]. *)
Definition exampleRetriever (answer : HTTPResult) : DefaultKeyRetriever := {|
  SigningKeysURL := "https://issuer.example/keys";
  c := mapCache;
  httpDo _ m := (answer, m);
|}.

Definition emptyWorld : World (gmap string bytes) := {| w_state := ∅; w_log := [] |}.

Definition exampleGet (answer : HTTPResult) (keyID : string)
  : M (gmap string bytes) (option JSONWebKey * option error) :=
  Get encodeKey decodeKey decodeKeySet (λ _, None) (exampleRetriever answer) keyID.

Lemma Get_fetch_failure_writes_nothing_witness :
  ∃ err, exampleGet (Response 503 []) "key-1" emptyWorld
         = ((None, Some err),
            {| w_state := ∅;
               w_log := [EvCacheGet "key-1"; EvHTTPGet "https://issuer.example/keys"] |})
         ∧ errors_Is err ErrFetchingSigningKey = true.
Proof.
  apply (Get_fetch_failure_writes_nothing encodeKey decodeKey decodeKeySet (λ _, None)
           (exampleRetriever (Response 503 [])) "key-1" emptyWorld (Response 503 []) ∅).
  - reflexivity.
  - reflexivity.
  - reflexivity.
  - right. exists 503, []. split; [reflexivity|]. left. lia.
Defined.

(** After a failed fetch the next call fetches again; after a fetch that
    succeeds without the key, the key is remembered as invalid and the next
    call does not fetch. *)
Example Get_retries_after_failed_fetch :
  let w1 := snd (exampleGet TransportError "key-1" emptyWorld) in
  w_state w1 = ∅
  ∧ w_log (snd (exampleGet TransportError "key-1" {| w_state := w_state w1; w_log := [] |}))
    = [EvCacheGet "key-1"; EvHTTPGet "https://issuer.example/keys"].
Proof. split; vm_compute; reflexivity. Qed.

Example Get_remembers_invalid_key :
  let answer := Response 200 (String.list_byte_of_string "key-2") in
  let w1 := snd (exampleGet answer "key-1" emptyWorld) in
  fst (exampleGet answer "key-1" emptyWorld) = (None, Some ErrInvalidSigningKey)
  ∧ w_state w1 !! "key-1" = Some []
  ∧ exampleGet answer "key-1" {| w_state := w_state w1; w_log := [] |}
    = ((None, Some ErrInvalidSigningKey),
       {| w_state := w_state w1; w_log := [EvCacheGet "key-1"] |}).
Proof. repeat split; vm_compute; reflexivity. Qed.

(** *** The key retriever over the map cache after a fetch *)

Section Fetched.
Variable encode : JSONWebKey → option bytes.
Variable decode : bytes → option JSONWebKey.
Variable decodeSet : bytes → option (list JSONWebKey).
Variable request : string → option error.

(** The cache after the keys of a fetched set have been stored, and the
    writes that store them: a key that does not encode is skipped. *)
Definition stored (keys : list JSONWebKey) (m : gmap string bytes) : gmap string bytes :=
  foldl (λ acc key, match encode key with
                    | Some buf => <[JwkKeyID key := buf]> acc
                    | None => acc
                    end) m keys.

Definition writes (keys : list JSONWebKey) : list Event :=
  omap (λ key, match encode key with
               | Some buf => Some (EvCacheSet (JwkKeyID key) buf NoExpiration)
               | None => None
               end) keys.

Lemma stored_cons key rest m :
  stored (key :: rest) m
  = stored rest (match encode key with
                 | Some buf => <[JwkKeyID key := buf]> m
                 | None => m
                 end).
Proof. reflexivity. Qed.

Lemma writes_cons key rest :
  writes (key :: rest)
  = match encode key with
    | Some buf => EvCacheSet (JwkKeyID key) buf NoExpiration :: writes rest
    | None => writes rest
    end.
Proof. unfold writes. cbn [omap list_omap]. by destruct (encode key). Qed.

Lemma setCachedItems_stored s keys m log :
  c s = mapCache →
  setCachedItems encode s keys {| w_state := m; w_log := log |}
  = (tt, {| w_state := stored keys m; w_log := log ++ writes keys |}).
Proof.
  intros Hc. revert m log. induction keys as [|key rest IH]; intros m log.
  - simpl. by rewrite app_nil_r.
  - rewrite stored_cons, writes_cons. cbn [setCachedItems].
    unfold mbind at 1, M_bind, bind, setCachedItem.
    destruct (encode key) as [buf|].
    + unfold mbind, M_bind, bind, cacheSet, call, ret. rewrite Hc.
      cbn [cache_Set mapCache w_state w_log]. rewrite IH.
      by rewrite <- app_assoc.
    + unfold ret. by rewrite IH.
Qed.

Lemma stored_other keys m keyID :
  (∀ key, In key keys → JwkKeyID key ≠ keyID) → stored keys m !! keyID = m !! keyID.
Proof.
  revert m. induction keys as [|key rest IH]; intros m Hother; [done|].
  rewrite stored_cons.
  rewrite IH by (intros k Hin; apply Hother; by right).
  destruct (encode key); [|done].
  rewrite lookup_insert_ne; [done|]. apply Hother. by left.
Qed.

Lemma stored_key keys m key buf :
  NoDup (map JwkKeyID keys) → In key keys → encode key = Some buf →
  stored keys m !! JwkKeyID key = Some buf.
Proof.
  revert m. induction keys as [|k rest IH]; intros m Hnodup Hin Henc; [done|].
  rewrite stored_cons.
  apply NoDup_cons in Hnodup as [Hfresh Hnodup].
  destruct Hin as [->|Hin].
  - rewrite Henc. rewrite stored_other.
    + by rewrite lookup_insert_eq.
    + intros k' Hin' Heq. apply Hfresh. rewrite <- Heq.
      apply list_elem_of_In. by apply in_map.
  - by apply IH.
Qed.

(** What one call of [Get] does over the map cache when the key is not
    cached and the endpoint answers 200 with a key set that decodes: the
    lookup, the request, the writes of the keys, and the second lookup. *)
Lemma Get_after_fetch s keyID m log body keys :
  c s = mapCache →
  m !! keyID = None →
  request (SigningKeysURL s) = None →
  httpDo s (SigningKeysURL s) m = (Response 200 body, m) →
  decodeSet body = Some keys →
  Get encode decode decodeSet request s keyID {| w_state := m; w_log := log |}
  = (let w2 := {| w_state := stored keys m;
                  w_log := log ++ [EvCacheGet keyID; EvHTTPGet (SigningKeysURL s)]
                             ++ writes keys |} in
     let '((jwk, ok), w3) := getCachedItem decode s keyID w2 in
     let '(_, w4) := (if negb ok then setEmptyCacheItem s keyID else ret tt) w3 in
     (keyOrInvalid jwk, w4)).
Proof.
  intros Hc Hmiss Hreq Hdo Hset.
  unfold Get at 1. unfold mbind, M_bind, bind.
  assert (getCachedItem decode s keyID {| w_state := m; w_log := log |}
          = ((None, false), {| w_state := m; w_log := log ++ [EvCacheGet keyID] |})) as ->.
  { unfold getCachedItem, cacheGet, call, mbind, M_bind, bind, ret.
    rewrite Hc. cbn [cache_Get mapCache w_state w_log]. by rewrite Hmiss. }
  cbn [negb]. unfold fetchAndCache, fetchJWKS, mbind, M_bind, bind, call, ret.
  rewrite Hreq. cbn [w_state w_log]. rewrite Hdo. cbn [Z.eqb Pos.eqb negb].
  rewrite Hset. rewrite setCachedItems_stored by done.
  rewrite <- !app_assoc. cbn [app].
  destruct (getCachedItem decode s keyID _) as [[jwk ok] w3]. reflexivity.
Qed.

(** X23. A fetch that succeeds without bringing the requested key writes an
    empty entry for it with the bounded expiry and fails with
    [ErrInvalidSigningKey]; the next call for the same key fails in the same
    way from the cache alone, without a request. *)
Theorem Get_remembers_unknown_key s keyID m log body keys :
  c s = mapCache →
  m !! keyID = None →
  request (SigningKeysURL s) = None →
  httpDo s (SigningKeysURL s) m = (Response 200 body, m) →
  decodeSet body = Some keys →
  (∀ key, In key keys → JwkKeyID key ≠ keyID) →
  let w1 := {| w_state := <[keyID := []]> (stored keys m);
               w_log := log ++ [EvCacheGet keyID; EvHTTPGet (SigningKeysURL s)]
                          ++ writes keys
                          ++ [EvCacheGet keyID; EvCacheSet keyID [] cacheTTL] |} in
  Get encode decode decodeSet request s keyID {| w_state := m; w_log := log |}
  = ((None, Some ErrInvalidSigningKey), w1)
  ∧ Get encode decode decodeSet request s keyID w1
    = ((None, Some ErrInvalidSigningKey),
       {| w_state := w_state w1; w_log := w_log w1 ++ [EvCacheGet keyID] |}).
Proof.
  intros Hc Hmiss Hreq Hdo Hset Hother w1. split.
  - rewrite (Get_after_fetch s keyID m log body keys) by done. cbv zeta.
    unfold getCachedItem, setEmptyCacheItem, cacheGet, cacheSet, call,
      mbind, M_bind, bind, ret.
    rewrite Hc. cbn [cache_Get cache_Set mapCache w_state w_log].
    rewrite stored_other, Hmiss by done. cbn [negb w_state w_log keyOrInvalid].
    subst w1. do 2 f_equal. by rewrite <- !app_assoc.
  - subst w1. unfold Get, getCachedItem, cacheGet, call, mbind, M_bind, bind, ret.
    rewrite Hc. cbn [cache_Get mapCache w_state w_log].
    by rewrite lookup_insert_eq.
Qed.

(** X24. A fetch that brings the requested key stores every key of the set
    without expiry and returns the requested one, provided the keys of the
    set have distinct identifiers and the requested key survives encoding
    and decoding; no empty entry is written. *)
Theorem Get_returns_fetched_key s keyID m log body keys key buf :
  c s = mapCache →
  m !! keyID = None →
  request (SigningKeysURL s) = None →
  httpDo s (SigningKeysURL s) m = (Response 200 body, m) →
  decodeSet body = Some keys →
  NoDup (map JwkKeyID keys) → In key keys → JwkKeyID key = keyID →
  encode key = Some buf → buf ≠ [] → decode buf = Some key →
  Get encode decode decodeSet request s keyID {| w_state := m; w_log := log |}
  = ((Some key, None),
     {| w_state := stored keys m;
        w_log := log ++ [EvCacheGet keyID; EvHTTPGet (SigningKeysURL s)]
                   ++ writes keys ++ [EvCacheGet keyID] |}).
Proof.
  intros Hc Hmiss Hreq Hdo Hset Hnodup Hin Hid Henc Hbuf Hdec.
  rewrite (Get_after_fetch s keyID m log body keys) by done. cbv zeta.
  unfold getCachedItem, cacheGet, call, mbind, M_bind, bind, ret.
  rewrite Hc. cbn [cache_Get mapCache w_state w_log].
  rewrite <- Hid, (stored_key keys m key buf) by done.
  destruct buf as [|b buf]; [done|]. cbn [length Nat.eqb]. rewrite Hdec.
  cbn [negb keyOrInvalid]. do 2 f_equal. by rewrite <- !app_assoc.
Qed.

End Fetched.

(** A token whose one header carries a [typ] that is a number. *)
Definition numberTypToken : JSONWebToken := {|
  Headers := [{| KeyID := "key-1"; ExtraHeaders := Some {[ "typ" := JNumber 42 ]} |}];
  TokenID := "t";
|}.

(** A token with two signatures: the first header carries the type of an
    identity token, the second carries none. *)
Definition twoHeaderToken : JSONWebToken := {|
  Headers := [{| KeyID := "key-1"; ExtraHeaders := Some {[ "typ" := JString "jwt" ]} |};
              {| KeyID := "key-1"; ExtraHeaders := None |}];
  TokenID := "t";
|}.

(** A verifier of access tokens over a library that parses every string to
    [token], accepts every signature and every claim, and a retriever that
    knows every key. *)
Definition exampleVerify (token : JSONWebToken) (raw : string)
  : M unit (option string * option error) :=
  Verify (λ _, Some token) (λ _ _ raw, inl raw) (λ _ _, None)
    {| AllowedAudiences := []; tokenType := "at+jwt";
       keys keyID := ret (Some {| JwkKeyID := keyID; JwkMaterial := [] |}, None) |}
    raw.

(** C8, where the code departs from it. A token whose [typ] header is
    present and is not the configured type passes the type check when the
    header is not a string, and [Verify] accepts the token. *)
Theorem Verify_accepts_non_string_typ :
  validType numberTypToken "at+jwt" = true
  ∧ exampleVerify numberTypToken "raw" {| w_state := tt; w_log := [] |}
    = ((Some "raw", None), {| w_state := tt; w_log := [] |}).
Proof. split; vm_compute; reflexivity. Qed.

(** The same check lets a token through when any one of its headers lacks
    a string [typ], whatever the other headers carry. *)
Example validType_two_headers : validType twoHeaderToken "at+jwt" = true.
Proof. vm_compute; reflexivity. Qed.

(** With one header and a string [typ], the check is the one C8 describes. *)
Example Verify_rejects_wrong_string_typ :
  exampleVerify
    {| Headers := [{| KeyID := "key-1";
                      ExtraHeaders := Some {[ "typ" := JString "jwt" ]} |}];
       TokenID := "t" |}
    "raw" {| w_state := tt; w_log := [] |}
  = ((None, Some ErrInvalidTokenType), {| w_state := tt; w_log := [] |}).
Proof. vm_compute; reflexivity. Qed.

(** *** The further theorems at concrete retrievers and tokens *)

(** The key the endpoint of the examples publishes. *)
Definition key2 : JSONWebKey := {| JwkKeyID := "key-2"; JwkMaterial := [] |}.

Definition key2Bytes : bytes := String.list_byte_of_string "key-2".

Lemma validType_some_header_witness :
  validType twoHeaderToken "at+jwt" = true ↔
  ∃ h, In h (Headers twoHeaderToken)
       ∧ (snd (typ_string h) = false ∨ typ_string h = ("at+jwt", true)).
Proof. apply validType_some_header. discriminate. Defined.

Lemma Get_cached_key_witness :
  exampleGet TransportError "key-2" {| w_state := {[ "key-2" := key2Bytes ]}; w_log := [] |}
  = ((Some key2, None),
     {| w_state := {[ "key-2" := key2Bytes ]}; w_log := [] ++ [EvCacheGet "key-2"] |}).
Proof.
  apply (Get_cached_key encodeKey decodeKey decodeKeySet (λ _, None)
           (exampleRetriever TransportError) "key-2"
           {| w_state := {[ "key-2" := key2Bytes ]}; w_log := [] |} key2Bytes).
  - reflexivity.
  - discriminate.
  - reflexivity.
Defined.

Lemma Get_known_invalid_key_witness :
  exampleGet TransportError "key-1" {| w_state := {[ "key-1" := [] ]}; w_log := [] |}
  = ((None, Some ErrInvalidSigningKey),
     {| w_state := {[ "key-1" := [] ]}; w_log := [] ++ [EvCacheGet "key-1"] |}).
Proof.
  apply (Get_known_invalid_key encodeKey decodeKey decodeKeySet (λ _, None)
           (exampleRetriever TransportError) "key-1"
           {| w_state := {[ "key-1" := [] ]}; w_log := [] |}).
  reflexivity.
Defined.

Lemma Get_remembers_unknown_key_witness :
  let s := exampleRetriever (Response 200 key2Bytes) in
  let w1 := {| w_state := <[ "key-1" := [] ]> (stored encodeKey [key2] ∅);
               w_log := [] ++ [EvCacheGet "key-1"; EvHTTPGet (SigningKeysURL s)]
                          ++ writes encodeKey [key2]
                          ++ [EvCacheGet "key-1"; EvCacheSet "key-1" [] cacheTTL] |} in
  exampleGet (Response 200 key2Bytes) "key-1" emptyWorld
  = ((None, Some ErrInvalidSigningKey), w1)
  ∧ exampleGet (Response 200 key2Bytes) "key-1" w1
    = ((None, Some ErrInvalidSigningKey),
       {| w_state := w_state w1; w_log := w_log w1 ++ [EvCacheGet "key-1"] |}).
Proof.
  apply (Get_remembers_unknown_key encodeKey decodeKey decodeKeySet (λ _, None)
           (exampleRetriever (Response 200 key2Bytes)) "key-1" ∅ [] key2Bytes [key2]).
  - reflexivity.
  - reflexivity.
  - reflexivity.
  - reflexivity.
  - reflexivity.
  - intros key [<-|[]]. discriminate.
Defined.

Lemma Get_returns_fetched_key_witness :
  exampleGet (Response 200 key2Bytes) "key-2" emptyWorld
  = ((Some key2, None),
     {| w_state := stored encodeKey [key2] ∅;
        w_log := [] ++ [EvCacheGet "key-2";
                        EvHTTPGet (SigningKeysURL (exampleRetriever (Response 200 key2Bytes)))]
                   ++ writes encodeKey [key2] ++ [EvCacheGet "key-2"] |}).
Proof.
  apply (Get_returns_fetched_key encodeKey decodeKey decodeKeySet (λ _, None)
           (exampleRetriever (Response 200 key2Bytes)) "key-2" ∅ [] key2Bytes [key2]
           key2 key2Bytes).
  - reflexivity.
  - reflexivity.
  - reflexivity.
  - reflexivity.
  - reflexivity.
  - repeat constructor. intros H. by apply elem_of_nil in H.
  - by left.
  - reflexivity.
  - reflexivity.
  - discriminate.
  - reflexivity.
Defined.

(** A verifier over a library whose validation reports an expired token
    wrapped in a message. *)
Definition expiredVerify (raw : string) : M unit (option string * option error) :=
  Verify (λ _, Some {| Headers := [{| KeyID := "key-1"; ExtraHeaders := None |}];
                       TokenID := "t" |})
    (λ _ _ raw, inl raw) (λ _ _, Some (ErrWrap ErrJWTExpired "validation failed"))
    {| AllowedAudiences := []; tokenType := "at+jwt";
       keys keyID := ret (Some {| JwkKeyID := keyID; JwkMaterial := [] |}, None) |}
    raw.

Lemma Verify_claims_errors_witness :
  ∃ err, expiredVerify "raw" {| w_state := tt; w_log := [] |}
         = ((None, Some err), {| w_state := tt; w_log := [] |})
    ∧ (errors_Is (ErrWrap ErrJWTExpired "validation failed") ErrJWTExpired = true →
       err = ErrExpiredToken)
    ∧ (errors_Is (ErrWrap ErrJWTExpired "validation failed") ErrJWTExpired = false →
       errors_Is (ErrWrap ErrJWTExpired "validation failed") ErrJWTInvalidAudience = true →
       err = ErrInvalidAudience)
    ∧ (errors_Is (ErrWrap ErrJWTExpired "validation failed") ErrJWTExpired = false →
       errors_Is (ErrWrap ErrJWTExpired "validation failed") ErrJWTInvalidAudience = false →
       err = ErrWrap ErrJWTExpired "validation failed").
Proof.
  apply (Verify_claims_errors
           (λ _, Some {| Headers := [{| KeyID := "key-1"; ExtraHeaders := None |}];
                         TokenID := "t" |})
           (λ _ _ raw, inl raw) (λ _ _, Some (ErrWrap ErrJWTExpired "validation failed"))
           {| AllowedAudiences := []; tokenType := "at+jwt";
              keys keyID := ret (Some {| JwkKeyID := keyID; JwkMaterial := [] |}, None) |}
           "raw" {| Headers := [{| KeyID := "key-1"; ExtraHeaders := None |}];
                    TokenID := "t" |}
           "key-1" (Some {| JwkKeyID := "key-1"; JwkMaterial := [] |})
           {| w_state := tt; w_log := [] |} {| w_state := tt; w_log := [] |}).
  - reflexivity.
  - reflexivity.
  - reflexivity.
  - reflexivity.
Defined.

(** An expired token is refused with [ErrExpiredToken]. *)
Example Verify_expired :
  expiredVerify "raw" {| w_state := tt; w_log := [] |}
  = ((None, Some ErrExpiredToken), {| w_state := tt; w_log := [] |}).
Proof. reflexivity. Qed.

End authn.
